(** * eco-traffic-harmony: the traffic simulation and its DQN control agent

    A shallow embedding of [src/pythonModel/rl_traffic_control.py]:
    the [TrafficEnvironment] class (intersections, [reset], [step],
    [_update_traffic_flow]) and the [TrafficRLAgent] class ([remember],
    [act], [replay]).

    Conventions of the embedding.
    - Python [int] is [Z]; Python [float] is modelled by exact rationals
      [Q] (no rounding); [int(np.sqrt(n))] is the integer square root.
    - The two pseudo-random generators the module draws from (numpy's
      global generator and the [random] module) are explicit streams of
      raw draws, threaded through every operation that consumes them.
    - A Python [dict] is an association list in insertion order.
    - The Keras networks are an interface with [predict] and [fit]. *)

From Stdlib Require Import ZArith QArith Qround Qminmax List Bool Lia Lqa.
Import ListNotations.
Local Open Scope Z_scope.

(** ** Randomness as explicit state *)

Module Rand.

(** The raw output still to come from each generator.  An exhausted
    list keeps producing [0], so every stream is total. *)
Record entropy : Type := mkEntropy {
  np_random : list N;   (* numpy's global generator *)
  py_random : list N    (* the generator of the [random] module *)
}.

Definition M (A : Type) : Type := entropy -> A * entropy.

Definition ret {A} (x : A) : M A := fun e => (x, e).

Definition bind {A B} (m : M A) (k : A -> M B) : M B :=
  fun e => let (x, e') := m e in k x e'.

Definition next (s : list N) : N * list N :=
  match s with
  | [] => (0%N, [])
  | x :: s' => (x, s')
  end.

Definition np_raw : M N := fun e =>
  let (x, s) := next (np_random e) in (x, mkEntropy s (py_random e)).

Definition py_raw : M N := fun e =>
  let (x, s) := next (py_random e) in (x, mkEntropy (np_random e) s).

(** [np.random.randint(lo, hi)]: an integer of [[lo, hi)]. *)
Definition np_randint (lo hi : Z) : M Z :=
  bind np_raw (fun x => ret (lo + Z.of_N x mod (hi - lo))).

(** [np.random.random()] and [np.random.rand()]: a 53-bit fraction of
    [[0, 1)]. *)
Definition np_uniform : M Q :=
  bind np_raw (fun x => ret (Z.of_N x mod 2 ^ 53 # 2 ^ 53)).

(** Operations that may also raise: [None] is an uncaught exception. *)
Definition ME (A : Type) : Type := entropy -> option (A * entropy).

Definition retE {A} (x : A) : ME A := fun e => Some (x, e).

Definition raise {A} : ME A := fun _ => None.

Definition lift {A} (m : M A) : ME A := fun e => Some (m e).

Definition bindE {A B} (m : ME A) (k : A -> ME B) : ME B :=
  fun e => match m e with
           | None => None
           | Some (x, e') => k x e'
           end.

(** [random.randrange(n)]; raises [ValueError] unless [0 < n]. *)
Definition py_randrange (n : Z) : ME Z :=
  if 0 <? n then lift (bind py_raw (fun x => ret (Z.of_N x mod n)))
  else raise.

Definition remove_nth {A} (j : nat) (l : list A) : list A :=
  firstn j l ++ skipn (S j) l.

(** [random.sample(pool, k)] for [k <= len(pool)]: [k] elements at
    distinct positions, in the order they are drawn. *)
Fixpoint py_sample {A} (pool : list A) (k : nat) : M (list A) :=
  match k with
  | O => ret []
  | S k' =>
      bind py_raw (fun x =>
        let j := (N.to_nat x mod length pool)%nat in
        match nth_error pool j with
        | None => ret []
        | Some v =>
            bind (py_sample (remove_nth j pool) k') (fun rest =>
            ret (v :: rest))
        end)
  end.

End Rand.

Notation "x <- m ;; k" := (Rand.bind m (fun x => k))
  (at level 61, m at next level, right associativity).
Notation "x <~ m ;; k" := (Rand.bindE m (fun x => k))
  (at level 61, m at next level, right associativity).

(** ** Python dictionaries with integer keys *)

Module Dict.

Definition t (V : Type) : Type := list (Z * V).

Section Ops.
Context {V : Type}.

Fixpoint get (d : t V) (k : Z) : option V :=
  match d with
  | [] => None
  | (k', v) :: d' => if k =? k' then Some v else get d' k
  end.

(** [k in d] *)
Definition mem (d : t V) (k : Z) : bool :=
  match get d k with Some _ => true | None => false end.

(** [d[k] = v]: overwrite in place, or append a new key. *)
Fixpoint set (d : t V) (k : Z) (v : V) : t V :=
  match d with
  | [] => [(k, v)]
  | (k', v') :: d' =>
      if k =? k' then (k, v) :: d' else (k', v') :: set d' k v
  end.

Definition keys (d : t V) : list Z := map fst d.

(** [for k in d: d[k] = f(d[k])], the body drawing randomness. *)
Fixpoint update_each (f : V -> Rand.M V) (d : t V) : Rand.M (t V) :=
  match d with
  | [] => Rand.ret []
  | (k, v) :: d' =>
      v' <- f v ;;
      r <- update_each f d' ;;
      Rand.ret ((k, v') :: r)
  end.
End Ops.

End Dict.

(** ** The traffic environment *)

Module Env.

Record intersection : Type := mkIntersection {
  position : Z * Z;
  queue_ns : Z;
  queue_ew : Z;
  current_phase : Z;   (* 0: NS green, EW red; 1: NS red, EW green *)
  time_in_phase : Z
}.

Definition with_queue_ns (x : intersection) (v : Z) : intersection :=
  mkIntersection (position x) v (queue_ew x) (current_phase x)
                 (time_in_phase x).

Definition with_queue_ew (x : intersection) (v : Z) : intersection :=
  mkIntersection (position x) (queue_ns x) v (current_phase x)
                 (time_in_phase x).

Definition with_phase (x : intersection) (p t : Z) : intersection :=
  mkIntersection (position x) (queue_ns x) (queue_ew x) p t.

Definition with_time_in_phase (x : intersection) (t : Z) : intersection :=
  mkIntersection (position x) (queue_ns x) (queue_ew x) (current_phase x) t.

Record env : Type := mkEnv {
  grid_size : Z * Z;
  num_intersections : Z;
  intersections : Dict.t intersection;
  current_time : Q;
  max_steps : Z;
  current_step : Z
}.

Definition with_intersections (e : env) (d : Dict.t intersection) : env :=
  mkEnv (grid_size e) (num_intersections e) d (current_time e)
        (max_steps e) (current_step e).

(** *** Construction *)

Definition range (n : Z) : list Z := map Z.of_nat (seq 0 (Z.to_nat n)).

(** [np.linspace(0, stop, n, dtype=int)]: [n] evenly spaced values from
    [0] to [stop], truncated towards zero. *)
Definition linspace_int (stop n : Z) : list Z :=
  if n =? 1 then [0]
  else map (fun i => Z.quot (i * stop) (n - 1)) (range n).

Definition fresh (r c : Z) : intersection :=
  mkIntersection (r, c) 0 0 0 0.

Definition place_row (cols : list Z) (acc : Z * Dict.t intersection)
  (r : Z) : Z * Dict.t intersection :=
  fold_left
    (fun (st : Z * Dict.t intersection) c =>
       let (intersection_id, d) := st in
       (intersection_id + 1, Dict.set d intersection_id (fresh r c)))
    cols acc.

(** [_initialize_intersections]; [None] when [np.sqrt] of a negative
    count makes [int] raise. *)
Definition _initialize_intersections (grid : Z * Z) (num : Z)
  : option (Dict.t intersection) :=
  if num <? 0 then None
  else
    let (rows, cols) := grid in
    let side := Z.sqrt num in
    let row_positions := linspace_int (rows - 1) side in
    let col_positions := linspace_int (cols - 1) side in
    Some (snd (fold_left (place_row col_positions) row_positions (0, []))).

(** [TrafficEnvironment(grid_size, num_intersections)] *)
Definition init (grid : Z * Z) (num : Z) : option env :=
  match _initialize_intersections grid num with
  | None => None
  | Some d => Some (mkEnv grid num d 0 1000 0)
  end.

(** *** Observations *)

Record encoding : Type := mkEncoding {
  time_sin : Q -> Q;   (* t |-> sin(2 pi t / 24) *)
  time_cos : Q -> Q    (* t |-> cos(2 pi t / 24) *)
}.

Definition observation : Type := list Q.

Definition observe (enc : encoding) (t : Q) (x : intersection)
  : observation :=
  [ inject_Z (queue_ns x); inject_Z (queue_ew x);
    inject_Z (current_phase x); inject_Z (time_in_phase x);
    time_sin enc t; time_cos enc t ].

Definition _get_state (enc : encoding) (e : env) : Dict.t observation :=
  map (fun kv : Z * intersection =>
         (fst kv, observe enc (current_time e) (snd kv)))
      (intersections e).

(** *** reset *)

Definition reset_intersection (x : intersection) : Rand.M intersection :=
  ns <- Rand.np_randint 0 10 ;;
  ew <- Rand.np_randint 0 10 ;;
  Rand.ret (mkIntersection (position x) ns ew 0 0).

Definition reset (enc : encoding) (e : env)
  : Rand.M (env * Dict.t observation) :=
  d <- Dict.update_each reset_intersection (intersections e) ;;
  let e' := mkEnv (grid_size e) (num_intersections e) d 0 (max_steps e) 0 in
  Rand.ret (e', _get_state enc e').

(** *** The exogenous arrival process *)

Definition Qltb (a b : Q) : bool := negb (Qle_bool b a).

Definition traffic_factor (hour : Q) : Q :=
  if (Qle_bool 7 hour && Qltb hour 9) || (Qle_bool 16 hour && Qltb hour 19)
  then 15 # 10
  else if Qle_bool 22 hour || Qltb hour 5 then 3 # 10
  else 1.

Definition arrive (factor : Q) (x : intersection) : Rand.M intersection :=
  u <- Rand.np_uniform ;;
  let random_factor := ((5 # 10) + u)%Q in
  u1 <- Rand.np_uniform ;;
  x1 <- (if Qltb u1 ((4 # 10) * factor * random_factor)
         then k <- Rand.np_randint 1 4 ;;
              Rand.ret (with_queue_ns x (Z.min 30 (queue_ns x + k)))
         else Rand.ret x) ;;
  u2 <- Rand.np_uniform ;;
  if Qltb u2 ((4 # 10) * factor * random_factor)
  then k <- Rand.np_randint 1 4 ;;
       Rand.ret (with_queue_ew x1 (Z.min 30 (queue_ew x1 + k)))
  else Rand.ret x1.

Definition _update_traffic_flow (e : env) : Rand.M env :=
  d <- Dict.update_each (arrive (traffic_factor (current_time e)))
                        (intersections e) ;;
  Rand.ret (with_intersections e d).

(** *** step *)

Definition apply_action (action : Z) (x : intersection) : intersection :=
  if action =? 0 then x
  else if action =? 1 then with_phase x (1 - current_phase x) 0
  else if action =? 2 then
    if current_phase x =? 0 then x else with_phase x 0 0
  else if action =? 3 then
    if current_phase x =? 1 then x else with_phase x 1 0
  else x.

Definition traffic_flow (x : intersection) : Rand.M intersection :=
  if current_phase x =? 0 then
    k <- Rand.np_randint 0 3 ;;
    let flow_rate := Z.min (3 + k) (queue_ns x) in
    let x1 := with_queue_ns x (Z.max 0 (queue_ns x - flow_rate)) in
    g <- Rand.np_randint 0 3 ;;
    Rand.ret (with_queue_ew x1 (Z.min 30 (queue_ew x1 + g)))
  else
    k <- Rand.np_randint 0 3 ;;
    let flow_rate := Z.min (3 + k) (queue_ew x) in
    let x1 := with_queue_ew x (Z.max 0 (queue_ew x - flow_rate)) in
    g <- Rand.np_randint 0 3 ;;
    Rand.ret (with_queue_ns x1 (Z.min 30 (queue_ns x1 + g))).

Definition reward_of (x : intersection) : Z :=
  let total_queue := queue_ns x + queue_ew x in
  let switching_penalty := if time_in_phase x =? 0 then 3 else 0 in
  - (total_queue + switching_penalty).

Record info_entry : Type := mkInfo {
  info_queue_ns : Z;
  info_queue_ew : Z;
  info_phase : Z;
  info_time_in_phase : Z
}.

Definition info_of (x : intersection) : info_entry :=
  mkInfo (queue_ns x) (queue_ew x) (current_phase x) (time_in_phase x).

(** What the loop over [actions.items()] carries along. *)
Record tick : Type := mkTick {
  tick_intersections : Dict.t intersection;
  tick_rewards : Dict.t Z;
  tick_info : Dict.t info_entry
}.

(** The body of the loop for an intersection that exists. *)
Definition control (action : Z) (x : intersection) : Rand.M intersection :=
  x1 <- traffic_flow (apply_action action x) ;;
  Rand.ret (with_time_in_phase x1 (time_in_phase x1 + 1)).

Definition process (st : tick) (ia : Z * Z) : Rand.M tick :=
  let (i, action) := ia in
  match Dict.get (tick_intersections st) i with
  | None => Rand.ret st                                  (* continue *)
  | Some x =>
      x' <- control action x ;;
      Rand.ret (mkTick (Dict.set (tick_intersections st) i x')
                       (Dict.set (tick_rewards st) i (reward_of x'))
                       (Dict.set (tick_info st) i (info_of x')))
  end.

Fixpoint process_all (st : tick) (actions : list (Z * Z)) : Rand.M tick :=
  match actions with
  | [] => Rand.ret st
  | ia :: rest => st' <- process st ia ;; process_all st' rest
  end.

Record step_result : Type := mkResult {
  next_state : Dict.t observation;
  rewards : Dict.t Z;
  done : bool;
  info : Dict.t info_entry
}.

(** [(t + 5/60) % 24] *)
Definition advance_time (t : Q) : Q :=
  let t' := (t + (5 # 60))%Q in
  Qred (t' - 24 * inject_Z (Qfloor (t' / 24)))%Q.

Definition tick_clock (e : env) : env :=
  mkEnv (grid_size e) (num_intersections e) (intersections e)
        (advance_time (current_time e)) (max_steps e) (current_step e + 1).

Definition step (enc : encoding) (e : env) (actions : list (Z * Z))
  : Rand.M (env * step_result) :=
  e1 <- _update_traffic_flow (tick_clock e) ;;
  st <- process_all (mkTick (intersections e1) [] []) actions ;;
  let e2 := with_intersections e1 (tick_intersections st) in
  Rand.ret (e2, mkResult (_get_state enc e2) (tick_rewards st)
                         (max_steps e2 <=? current_step e2)
                         (tick_info st)).

(** *** Running a sequence of calls *)

Inductive call : Type :=
| CallReset
| CallStep (actions : list (Z * Z)).

Definition perform (enc : encoding) (e : env) (c : call) : Rand.M env :=
  match c with
  | CallReset => r <- reset enc e ;; Rand.ret (fst r)
  | CallStep actions => r <- step enc e actions ;; Rand.ret (fst r)
  end.

Fixpoint run (enc : encoding) (e : env) (calls : list call) : Rand.M env :=
  match calls with
  | [] => Rand.ret e
  | c :: rest => e' <- perform enc e c ;; run enc e' rest
  end.

End Env.

(** ** The DQN agent *)

Module Agent.

Definition observation : Type := list Q.

(** The Keras model as the agent uses it.  [predict] gives the row of
    action values for one state; [fit] is one training pass on one
    (state, target row) pair.  A network value stands for its weights,
    so [set_weights(get_weights())] is plain assignment. *)
Class Approximator (net : Type) : Type := {
  predict : net -> observation -> list Q;
  fit : net -> observation -> list Q -> net
}.

Record transition : Type := mkTransition {
  t_state : observation;
  t_action : Z;
  t_reward : Q;
  t_next_state : observation;
  t_done : bool
}.

(** [collections.deque(maxlen=n)] *)
Record deque (A : Type) : Type := mkDeque {
  maxlen : nat;
  items : list A
}.
Arguments mkDeque {A}.
Arguments maxlen {A}.
Arguments items {A}.

Definition append {A} (d : deque A) (x : A) : deque A :=
  let l := items d ++ [x] in
  mkDeque (maxlen d) (if (maxlen d <? length l)%nat then tl l else l).

(** *** numpy helpers *)

Definition Qltb (a b : Q) : bool := negb (Qle_bool b a).

Fixpoint argmax_from (best_i : nat) (best : Q) (i : nat) (l : list Q)
  : nat :=
  match l with
  | [] => best_i
  | x :: l' =>
      if Qltb best x then argmax_from i x (S i) l'
      else argmax_from best_i best (S i) l'
  end.

(** [np.argmax]: the first position of a maximal entry; raises on an
    empty array. *)
Definition argmax (l : list Q) : option Z :=
  match l with
  | [] => None
  | x :: l' => Some (Z.of_nat (argmax_from 0 x 1 l'))
  end.

(** Position addressed by a Python index: negative indices count from
    the end, anything else out of range raises [IndexError]. *)
Definition index {A} (l : list A) (i : Z) : option nat :=
  let n := Z.of_nat (length l) in
  if (0 <=? i) && (i <? n) then Some (Z.to_nat i)
  else if (- n <=? i) && (i <? 0) then Some (Z.to_nat (n + i))
  else None.

Definition getitem {A} (l : list A) (i : Z) : option A :=
  match index l i with
  | None => None
  | Some k => nth_error l k
  end.

Definition setitem {A} (l : list A) (i : Z) (v : A) : option (list A) :=
  match index l i with
  | None => None
  | Some k => Some (firstn k l ++ v :: skipn (S k) l)
  end.

Section WithNetwork.
Context {net : Type} `{Approximator net}.

Record agent : Type := mkAgent {
  state_size : Z;
  action_size : Z;
  gamma : Q;
  epsilon : Q;
  epsilon_min : Q;
  epsilon_decay : Q;
  learning_rate : Q;
  memory : deque transition;
  primary_network : net;
  target_network : net
}.

Definition with_memory (a : agent) (m : deque transition) : agent :=
  mkAgent (state_size a) (action_size a) (gamma a) (epsilon a)
          (epsilon_min a) (epsilon_decay a) (learning_rate a) m
          (primary_network a) (target_network a).

Definition with_primary (a : agent) (p : net) : agent :=
  mkAgent (state_size a) (action_size a) (gamma a) (epsilon a)
          (epsilon_min a) (epsilon_decay a) (learning_rate a) (memory a)
          p (target_network a).

Definition with_epsilon (a : agent) (eps : Q) : agent :=
  mkAgent (state_size a) (action_size a) (gamma a) eps
          (epsilon_min a) (epsilon_decay a) (learning_rate a) (memory a)
          (primary_network a) (target_network a).

Definition update_target_network (a : agent) : agent :=
  mkAgent (state_size a) (action_size a) (gamma a) (epsilon a)
          (epsilon_min a) (epsilon_decay a) (learning_rate a) (memory a)
          (primary_network a) (primary_network a).

(** [TrafficRLAgent(state_size, action_size)]; [model] is what
    [_build_model] returns for the primary network. *)
Definition init (state_size action_size : Z) (model : net) : agent :=
  update_target_network
    (mkAgent state_size action_size (95 # 100) 1 (1 # 100) (995 # 1000)
             (1 # 1000) (mkDeque 2000 []) model model).

Definition remember (a : agent) (state : observation) (action : Z)
  (reward : Q) (next_state : observation) (done : bool) : agent :=
  with_memory a
    (append (memory a) (mkTransition state action reward next_state done)).

Definition greedy (a : agent) (state : observation) : Rand.ME Z :=
  match argmax (predict (primary_network a) state) with
  | None => Rand.raise
  | Some k => Rand.retE k
  end.

Definition act (a : agent) (state : observation) (training : bool)
  : Rand.ME Z :=
  if training then
    u <~ Rand.lift Rand.np_uniform ;;
    if Qle_bool u (epsilon a) then Rand.py_randrange (action_size a)
    else greedy a state
  else greedy a state.

(** The learning target of one sampled transition. *)
Definition learning_target (a : agent) (tr : transition) : option Q :=
  if t_done tr then Some (t_reward tr)
  else
    match argmax (predict (primary_network a) (t_next_state tr)) with
    | None => None
    | Some next_action =>
        let target_q_values :=
          predict (target_network a) (t_next_state tr) in
        match getitem target_q_values next_action with
        | None => None
        | Some q => Some (t_reward tr + gamma a * q)%Q
        end
    end.

(** [target_f] as it is handed to [fit]. *)
Definition target_vector (a : agent) (tr : transition)
  : option (list Q) :=
  match learning_target a tr with
  | None => None
  | Some target =>
      setitem (predict (primary_network a) (t_state tr)) (t_action tr)
              target
  end.

(** The loop over the minibatch.  Besides the agent it returns the
    arguments of every [fit] call, in order. *)
Fixpoint train_batch (a : agent) (minibatch : list transition)
  : option (agent * list (observation * list Q)) :=
  match minibatch with
  | [] => Some (a, [])
  | tr :: rest =>
      match target_vector a tr with
      | None => None
      | Some target_f =>
          let a1 :=
            with_primary a
              (fit (primary_network a) (t_state tr) target_f) in
          match train_batch a1 rest with
          | None => None
          | Some (a', calls) => Some (a', (t_state tr, target_f) :: calls)
          end
      end
  end.

Definition decay_epsilon (a : agent) : agent :=
  if Qltb (epsilon_min a) (epsilon a)
  then with_epsilon a (epsilon a * epsilon_decay a)%Q
  else a.

(** [replay(batch_size)]; the Python result is the constant [0] on
    every path and is left out. *)
Definition replay (a : agent) (batch_size : Z) : Rand.ME agent :=
  if Z.of_nat (length (items (memory a))) <? batch_size then Rand.retE a
  else if batch_size <? 0 then Rand.raise
  else
    minibatch <~ Rand.lift
      (Rand.py_sample (items (memory a)) (Z.to_nat batch_size)) ;;
    match train_batch a minibatch with
    | None => Rand.raise
    | Some (a', _) => Rand.retE (decay_epsilon a')
    end.

End WithNetwork.
Arguments agent net : clear implicits.

(** A small table-free approximator used to run the agent on concrete
    data: its weights are the four action values it predicts for every
    state, and fitting memorises the target row. *)
Definition row4 : Type := (Q * Q * Q * Q)%type.

#[export] Instance row4_approximator : Approximator row4 := {
  predict := fun (w : row4) (_ : observation) =>
    let '(a, b, c, d) := w in [a; b; c; d];
  fit := fun (w : row4) (_ : observation) (target : list Q) =>
    match target with
    | [a; b; c; d] => (a, b, c, d)
    | _ => w
    end
}.

End Agent.

(** ** Invariants and sample data *)

Module Inv.
Import Env.

(** While the intersections are placed, the dictionary under
    construction holds exactly the ids below the counter. *)
Definition numbered (st : Z * Dict.t intersection) : Prop :=
  0 <= fst st /\ Dict.keys (snd st) = range (fst st).

(** What every intersection satisfies between calls. *)
Definition sane (x : intersection) : Prop :=
  (0 <= queue_ns x <= 30) /\ (0 <= queue_ew x <= 30) /\
  0 <= time_in_phase x.

Definition all_sane (d : Dict.t intersection) : Prop :=
  Forall (fun kv => sane (snd kv)) d.

(** Within one [step], every reward written so far belongs to the
    current record of its intersection, and so does the info entry. *)
Definition coherent (st : tick) : Prop :=
  forall i,
    match Dict.get (tick_rewards st) i with
    | Some r =>
        exists x, Dict.get (tick_intersections st) i = Some x /\
                  r = reward_of x /\
                  Dict.get (tick_info st) i = Some (info_of x)
    | None => Dict.get (tick_info st) i = None
    end.

(** Every reward written so far is minus the two queues. *)
Definition unpenalised (st : tick) : Prop :=
  forall i r,
    Dict.get (tick_rewards st) i = Some r ->
    exists x, Dict.get (tick_intersections st) i = Some x /\
              r = - (queue_ns x + queue_ew x).

(** A time encoding for running examples: midnight's values at every
    hour.  No property depends on it. *)
Definition flat_encoding : encoding :=
  mkEncoding (fun _ => 0%Q) (fun _ => 1%Q).

(** The environment [train_agent] builds:
    [TrafficEnvironment(grid_size=(10, 10), num_intersections=4)]. *)
Definition grid4 : env :=
  mkEnv (10, 10) 4
        [ (0, fresh 0 0); (1, fresh 0 9); (2, fresh 9 0); (3, fresh 9 9) ]
        0 1000 0.

(** Generators whose raw output is all zeros. *)
Definition zeros : Rand.entropy := Rand.mkEntropy [] [].

End Inv.

(** ** Vocabulary for the agent *)

Module AgentSpec.
Import Agent.

(** [k] is the first position of a maximal entry of [l]. *)
Definition is_argmax (l : list Q) (k : nat) : Prop :=
  exists m,
    nth_error l k = Some m /\
    (forall j x, nth_error l j = Some x -> (x <= m)%Q) /\
    (forall j x, (j < k)%nat -> nth_error l j = Some x -> (x < m)%Q).

(** [row'] is [row] with position [k] overwritten by [v] and nothing
    else changed. *)
Definition overwritten (row row' : list Q) (k : nat) (v : Q) : Prop :=
  length row' = length row /\
  nth_error row' k = Some v /\
  (forall j, j <> k -> nth_error row' j = nth_error row j).

Section WithNetwork.
Context {net : Type} `{Approximator net}.

Definition remember_transition (a : agent net) (tr : transition)
  : agent net :=
  remember a (t_state tr) (t_action tr) (t_reward tr) (t_next_state tr)
           (t_done tr).

(** Successive [remember] calls. *)
Definition remember_all (a : agent net) (ts : list transition)
  : agent net :=
  fold_left remember_transition ts a.

(** Successive [replay] calls with one batch size. *)
Fixpoint replay_times (n : nat) (a : agent net) (batch_size : Z)
  : Rand.ME (agent net) :=
  match n with
  | O => Rand.retE a
  | S n' => a1 <~ replay a batch_size ;; replay_times n' a1 batch_size
  end.

(** The networks answer every state with [size] action values, and the
    stored actions index such a row. *)
Definition rows_of_size (size : nat) : Prop :=
  forall (w : net) (s : observation), length (predict w s) = size.

Definition indexes (size : nat) (tr : transition) : Prop :=
  - Z.of_nat size <= t_action tr < Z.of_nat size.

(** The double-DQN rule along a minibatch: the [k]-th sample is handled
    by the agent [ak] the earlier samples left behind; its target is
    the reward when the transition is terminal and otherwise the
    reward plus [gamma] times the target network's value at the
    primary network's arg-max action for the next state; that target
    is what sits at the sample's action in the row handed to [fit]. *)
Definition double_dqn_rule (a : agent net) (minibatch : list transition)
  : Prop :=
  exists a' calls,
    train_batch a minibatch = Some (a', calls) /\
    forall k tr,
      nth_error minibatch k = Some tr ->
      exists ak ck target target_f,
        train_batch a (firstn k minibatch) = Some (ak, ck) /\
        target_network ak = target_network a /\
        gamma ak = gamma a /\
        learning_target ak tr = Some target /\
        nth_error calls k = Some (t_state tr, target_f) /\
        getitem target_f (t_action tr) = Some target /\
        (t_done tr = true -> target = t_reward tr) /\
        (t_done tr = false ->
         exists next_action q,
           is_argmax (predict (primary_network ak) (t_next_state tr))
                     next_action /\
           nth_error (predict (target_network a) (t_next_state tr))
                     next_action = Some q /\
           target = (t_reward tr + gamma a * q)%Q).

(** The frame of one learning update along a minibatch: the row handed
    to [fit] for the [k]-th sample is the primary network's current
    row for the sample's state with the sample's action overwritten by
    the target, and that [fit] call produces the next primary
    network. *)
Definition frame_rule (a : agent net) (minibatch : list transition)
  : Prop :=
  exists a' calls,
    train_batch a minibatch = Some (a', calls) /\
    length calls = length minibatch /\
    forall k tr,
      nth_error minibatch k = Some tr ->
      exists ak ck target target_f pos,
        train_batch a (firstn k minibatch) = Some (ak, ck) /\
        learning_target ak tr = Some target /\
        nth_error calls k = Some (t_state tr, target_f) /\
        index (predict (primary_network ak) (t_state tr)) (t_action tr)
        = Some pos /\
        overwritten (predict (primary_network ak) (t_state tr))
                    target_f pos target /\
        train_batch a (firstn (S k) minibatch)
        = Some (with_primary ak
                  (fit (primary_network ak) (t_state tr) target_f),
                ck ++ [(t_state tr, target_f)]).
End WithNetwork.

(** Sample data on the four-value approximator. *)
Definition blank : agent row4 := init 6 4 (0, 0, 0, 0)%Q.

Definition sample_state : observation := [3; 2; 0; 1; 0; 1]%Q.
Definition sample_next : observation := [1; 4; 0; 2; 0; 1]%Q.

(** The agent of the worked example: the primary network answers
    [1, 5, 3, 2] and the target network [4, 4, 4, 4]. *)
Definition worked : agent row4 :=
  with_primary (init 6 4 (4, 4, 4, 4)%Q) (1, 5, 3, 2)%Q.

Definition worked_transition : transition :=
  mkTransition sample_state 2 (-6) sample_next false.

(** An agent with one stored transition. *)
Definition seasoned : agent row4 :=
  remember_transition blank worked_transition.

Definition numbered_transition (n : nat) : transition :=
  mkTransition sample_state 0 (inject_Z (Z.of_nat n)) sample_next false.

End AgentSpec.

(** ** Vocabulary for sequences of environment calls *)

Module EnvSpec.
Import Env.

(** Successive [step] calls, one per action map, with the [done] flag
    each of them returned. *)
Fixpoint steps (enc : encoding) (e : env) (script : list (list (Z * Z)))
  : Rand.M (env * list bool) :=
  match script with
  | [] => Rand.ret (e, [])
  | actions :: rest =>
      r <- step enc e actions ;;
      r' <- steps enc (fst r) rest ;;
      Rand.ret (fst r', done (snd r) :: snd r')
  end.

(** What no call changes about an intersection, and what it keeps true:
    the position is fixed, the phase stays one of the two signal states
    and the timer stays non-negative. *)
Definition keeps (x x' : intersection) : Prop :=
  position x' = position x /\
  (current_phase x = 0 \/ current_phase x = 1 ->
   current_phase x' = 0 \/ current_phase x' = 1) /\
  (0 <= time_in_phase x -> 0 <= time_in_phase x').

(** Two dictionaries with the same ids in the same order whose records
    are related one by one. *)
Definition related {V : Type} (R : V -> V -> Prop) (d d' : Dict.t V) : Prop :=
  Forall2 (fun kv kv' => fst kv = fst kv' /\ R (snd kv) (snd kv')) d d'.

(** The effect of the arrival process on one intersection. *)
Definition arrived (x x' : intersection) : Prop :=
  position x' = position x /\
  current_phase x' = current_phase x /\
  time_in_phase x' = time_in_phase x /\
  (queue_ns x <= 30 -> queue_ns x <= queue_ns x' <= Z.min 30 (queue_ns x + 3)) /\
  (queue_ew x <= 30 -> queue_ew x <= queue_ew x' <= Z.min 30 (queue_ew x + 3)).

(** The effect of [reset] on one intersection. *)
Definition restarted (x x' : intersection) : Prop :=
  position x' = position x /\
  0 <= queue_ns x' < 10 /\ 0 <= queue_ew x' < 10 /\
  current_phase x' = 0 /\ time_in_phase x' = 0.

(** The phase an action code asks for, from phase [p]. *)
Definition commanded (action p : Z) : Z :=
  if action =? 1 then 1 - p
  else if action =? 2 then 0
  else if action =? 3 then 1
  else p.

(** The effect of one processed action on an intersection: the signal
    (phase and timer), then the queues under the phase now showing, with
    a service capacity [3 + k] and a red-side growth [g] drawn from
    [0, 1, 2]. *)
Definition controlled (action : Z) (x x' : intersection) : Prop :=
  position x' = position x /\
  current_phase x' = commanded action (current_phase x) /\
  time_in_phase x'
  = (if current_phase x' =? current_phase x then time_in_phase x + 1 else 1) /\
  exists k g,
    0 <= k < 3 /\ 0 <= g < 3 /\
    (current_phase x' = 0 ->
     queue_ns x' = Z.max 0 (queue_ns x - Z.min (3 + k) (queue_ns x)) /\
     queue_ew x' = Z.min 30 (queue_ew x + g)) /\
    (current_phase x' <> 0 ->
     queue_ew x' = Z.max 0 (queue_ew x - Z.min (3 + k) (queue_ew x)) /\
     queue_ns x' = Z.min 30 (queue_ns x + g)).

(** A computation that draws from numpy's generator only. *)
Definition np_only {A : Type} (m : Rand.M A) : Prop :=
  forall e, Rand.py_random (snd (m e)) = Rand.py_random e.

(** A computation whose result and numpy draws are determined by numpy's
    stream alone, and which hands the [random] module's stream on as it
    got it. *)
Definition numpy_driven {A : Type} (m : Rand.M A) : Prop :=
  forall np, exists x np',
    forall py, m (Rand.mkEntropy np py) = (x, Rand.mkEntropy np' py).

End EnvSpec.

(** ** Sequence windows of the forecasting model

    [TrafficLSTMModel._create_sequences] of
    [src/pythonModel/traffic_lstm.py], on the one column it reads. *)

Module Lstm.

(** Where a slice bound lands in a sequence of length [len]: a negative
    bound counts from the end, and both kinds are clipped. *)
Definition clamp (len i : Z) : Z :=
  if i <? 0 then Z.max 0 (i + len) else Z.min i len.

(** [l[lo:hi]] *)
Definition slice {A : Type} (l : list A) (lo hi : Z) : list A :=
  let n := Z.of_nat (length l) in
  let a := clamp n lo in
  let b := clamp n hi in
  firstn (Z.to_nat (b - a)) (skipn (Z.to_nat a) l).

Definition _create_sequences (look_back prediction_horizon : Z)
  (data : list Q) : list (list Q) * list (list Q) :=
  let starts :=
    Env.range (Z.of_nat (length data) - look_back - prediction_horizon + 1) in
  (map (fun i => slice data i (i + look_back)) starts,
   map (fun i => slice data (i + look_back)
                       (i + look_back + prediction_horizon)) starts).

End Lstm.

(** * Properties *)

(** ** Dictionaries *)

Module DictFacts.

Section Facts.
Context {V : Type}.
Implicit Types (d : Dict.t V) (k : Z) (v : V).

Lemma get_set_same d k v : Dict.get (Dict.set d k v) k = Some v.
Proof.
  induction d as [|[k' v'] d IH]; simpl.
  - now rewrite Z.eqb_refl.
  - destruct (k =? k') eqn:E; simpl; rewrite ?Z.eqb_refl, ?E; auto.
Qed.

Lemma get_set_other d k j v :
  j <> k -> Dict.get (Dict.set d k v) j = Dict.get d j.
Proof.
  intros Hjk. induction d as [|[k' v'] d IH]; simpl.
  - destruct (j =? k) eqn:E; [apply Z.eqb_eq in E; contradiction | easy].
  - destruct (k =? k') eqn:E; simpl.
    + apply Z.eqb_eq in E; subst k'.
      destruct (j =? k) eqn:E'; [apply Z.eqb_eq in E'; contradiction|easy].
    + now rewrite IH.
Qed.

Lemma mem_in_keys d k : Dict.mem d k = true <-> In k (Dict.keys d).
Proof.
  unfold Dict.mem, Dict.keys.
  induction d as [|[k' v'] d IH]; simpl.
  - split; [discriminate | tauto].
  - destruct (k =? k') eqn:E.
    + apply Z.eqb_eq in E. subst. tauto.
    + apply Z.eqb_neq in E. rewrite IH. split; [tauto|].
      intros [H|H]; [congruence | exact H].
Qed.

Lemma mem_set d k j v :
  Dict.mem (Dict.set d k v) j = (j =? k) || Dict.mem d j.
Proof.
  unfold Dict.mem. destruct (j =? k) eqn:E.
  - apply Z.eqb_eq in E; subst. now rewrite get_set_same.
  - apply Z.eqb_neq in E. now rewrite get_set_other.
Qed.

Lemma keys_set_present d k v :
  Dict.mem d k = true -> Dict.keys (Dict.set d k v) = Dict.keys d.
Proof.
  unfold Dict.mem, Dict.keys.
  induction d as [|[k' v'] d IH]; simpl; [discriminate|].
  destruct (k =? k') eqn:E; simpl; intros Hm.
  - apply Z.eqb_eq in E. now subst.
  - now rewrite IH.
Qed.

Lemma set_absent d k v :
  ~ In k (Dict.keys d) -> Dict.set d k v = d ++ [(k, v)].
Proof.
  unfold Dict.keys.
  induction d as [|[k' v'] d IH]; simpl; intros Hn; [easy|].
  destruct (k =? k') eqn:E.
  - apply Z.eqb_eq in E. subst. tauto.
  - rewrite IH; tauto.
Qed.

Lemma get_in d k v : Dict.get d k = Some v -> In (k, v) d.
Proof.
  induction d as [|[k' v'] d IH]; simpl; [discriminate|].
  destruct (k =? k') eqn:E.
  - apply Z.eqb_eq in E. intros [= ->]. subst. now left.
  - intros Hg. right. now apply IH.
Qed.

Lemma set_Forall (P : Z * V -> Prop) d k v :
  Forall P d -> P (k, v) -> Forall P (Dict.set d k v).
Proof.
  intros Hd Hv. induction Hd as [|[k' v'] d Hx Hd IH]; simpl.
  - now constructor.
  - destruct (k =? k'); constructor; auto.
Qed.

Lemma update_each_keys (f : V -> Rand.M V) d e :
  Dict.keys (fst (Dict.update_each f d e)) = Dict.keys d.
Proof.
  revert e. induction d as [|[k v] d IH]; intros e; simpl; [easy|].
  unfold Rand.bind. destruct (f v e) as [v' e1].
  specialize (IH e1). destruct (Dict.update_each f d e1) as [r e2].
  simpl in *. now rewrite IH.
Qed.

Lemma update_each_Forall (P R : V -> Prop) (f : V -> Rand.M V) :
  (forall v e, P v -> R (fst (f v e))) ->
  forall d e,
    Forall (fun kv => P (snd kv)) d ->
    Forall (fun kv => R (snd kv)) (fst (Dict.update_each f d e)).
Proof.
  intros Hf d. induction d as [|[k v] d IH]; intros e Hd; simpl.
  - constructor.
  - inversion Hd as [|? ? Hv Hd']; subst. unfold Rand.bind.
    pose proof (Hf v e Hv) as Hv'. destruct (f v e) as [v' e1].
    specialize (IH e1 Hd'). destruct (Dict.update_each f d e1) as [r e2].
    simpl in *. now constructor.
Qed.
End Facts.

Lemma mem_same_keys {V W} (d : Dict.t V) (d' : Dict.t W) k :
  Dict.keys d = Dict.keys d' -> Dict.mem d k = Dict.mem d' k.
Proof.
  intros Hk.
  destruct (Dict.mem d k) eqn:E1, (Dict.mem d' k) eqn:E2; auto.
  - apply mem_in_keys in E1. rewrite Hk in E1. apply mem_in_keys in E1.
    congruence.
  - apply mem_in_keys in E2. rewrite <- Hk in E2. apply mem_in_keys in E2.
    congruence.
Qed.

End DictFacts.

(** ** Placement of the intersections *)

Module PlacementFacts.
Import Env Inv.

Lemma range_length n : length (range n) = Z.to_nat n.
Proof. unfold range. now rewrite length_map, length_seq. Qed.

Lemma range_succ n : 0 <= n -> range (n + 1) = range n ++ [n].
Proof.
  intros Hn. unfold range.
  replace (Z.to_nat (n + 1)) with (Z.to_nat n + 1)%nat by lia.
  rewrite seq_app, map_app. simpl. now rewrite Z2Nat.id.
Qed.

Lemma in_range k n : In k (range n) <-> 0 <= k < n.
Proof.
  unfold range. rewrite in_map_iff. split.
  - intros [j [<- Hj]]. apply in_seq in Hj. lia.
  - intros Hk. exists (Z.to_nat k). split; [lia|]. apply in_seq. lia.
Qed.

Lemma linspace_int_length stop n :
  0 <= n -> length (linspace_int stop n) = Z.to_nat n.
Proof.
  intros Hn. unfold linspace_int. destruct (n =? 1) eqn:E.
  - apply Z.eqb_eq in E. now subst.
  - now rewrite length_map, range_length.
Qed.

Lemma place_row_numbered cols r st :
  numbered st ->
  numbered (place_row cols st r) /\
  fst (place_row cols st r) = fst st + Z.of_nat (length cols).
Proof.
  unfold place_row. revert st.
  induction cols as [|c cols IH]; intros [id d] [Hid Hk]; simpl in *.
  - split; [now split | lia].
  - destruct (IH (id + 1, Dict.set d id (fresh r c))) as [Hn Hf].
    + split; simpl; [lia|].
      rewrite DictFacts.set_absent.
      * unfold Dict.keys in *. rewrite map_app, Hk. simpl.
        now rewrite range_succ.
      * rewrite Hk, in_range. lia.
    + split; [exact Hn|]. rewrite Hf. simpl. lia.
Qed.

Lemma place_rows_numbered cols rows st :
  numbered st ->
  numbered (fold_left (place_row cols) rows st) /\
  fst (fold_left (place_row cols) rows st)
  = fst st + Z.of_nat (length rows) * Z.of_nat (length cols).
Proof.
  revert st. induction rows as [|r rows IH]; intros st Hst; cbn [fold_left].
  - split; [exact Hst | simpl; lia].
  - destruct (place_row_numbered cols r st Hst) as [Hn Hf].
    destruct (IH _ Hn) as [Hn' Hf'].
    split; [exact Hn'|]. rewrite Hf', Hf.
    change (length (r :: rows)) with (S (length rows)). lia.
Qed.

Lemma square_iff_sqrt n :
  0 <= n -> (Z.sqrt n * Z.sqrt n = n <-> exists k, n = k * k).
Proof.
  intros Hn. split.
  - intros Hs. now exists (Z.sqrt n).
  - intros [k ->].
    replace (k * k) with (Z.abs k * Z.abs k) by lia.
    rewrite Z.sqrt_square; lia.
Qed.

(** C10: the constructor places [floor(sqrt(num))^2] intersections with
    the ids [0, 1, ...]; that is [num] exactly for perfect squares and
    strictly fewer otherwise. *)
Theorem placement_count (grid : Z * Z) (num : Z) :
  0 <= num ->
  exists d,
    _initialize_intersections grid num = Some d /\
    Dict.keys d = range (Z.sqrt num * Z.sqrt num) /\
    Z.of_nat (length d) = Z.sqrt num * Z.sqrt num /\
    (Z.of_nat (length d) = num <-> exists k, num = k * k) /\
    ((~ exists k, num = k * k) -> Z.of_nat (length d) < num).
Proof.
  intros Hnum. unfold _initialize_intersections.
  destruct (num <? 0) eqn:E; [apply Z.ltb_lt in E; lia|].
  destruct grid as [rows cols].
  set (cs := linspace_int (cols - 1) (Z.sqrt num)).
  set (rs := linspace_int (rows - 1) (Z.sqrt num)).
  destruct (place_rows_numbered cs rs (0, []))
    as [[_ Hkeys] Hfst]; [split; simpl; [lia | reflexivity]|].
  pose proof (Z.sqrt_nonneg num) as Hs.
  assert (Hcount : fst (fold_left (place_row cs) rs (0, []))
                   = Z.sqrt num * Z.sqrt num).
  { rewrite Hfst. unfold cs, rs.
    rewrite !linspace_int_length by exact Hs. simpl. lia. }
  rewrite Hcount in Hkeys.
  assert (Hlen : Z.of_nat (length (snd (fold_left (place_row cs) rs (0, []))))
                 = Z.sqrt num * Z.sqrt num).
  { rewrite <- (length_map fst). fold (Dict.keys (snd (fold_left (place_row cs) rs (0, [])))).
    rewrite Hkeys, range_length. lia. }
  eexists. split; [reflexivity|].
  split; [exact Hkeys|]. split; [exact Hlen|].
  rewrite Hlen. split; [now apply square_iff_sqrt|].
  intros Hns. pose proof (Z.sqrt_spec num Hnum) as [Hlo _].
  destruct (Z.eq_dec (Z.sqrt num * Z.sqrt num) num) as [Heq|Hne]; [|lia].
  exfalso. apply Hns. now exists (Z.sqrt num).
Qed.

Lemma placement_count_witness :
  0 <= 7 /\ exists d,
    _initialize_intersections (10, 10) 7 = Some d /\
    Dict.keys d = range (Z.sqrt 7 * Z.sqrt 7) /\
    Z.of_nat (length d) = Z.sqrt 7 * Z.sqrt 7 /\
    (Z.of_nat (length d) = 7 <-> exists k, 7 = k * k) /\
    ((~ exists k, 7 = k * k) -> Z.of_nat (length d) < 7).
Proof. split; [lia | apply (placement_count (10, 10) 7); lia]. Defined.

End PlacementFacts.

(** ** The environment: queue bounds and rewards *)

Module EnvFacts.
Import Env Inv.

Lemma np_randint_spec lo hi e :
  lo < hi ->
  exists k e', Rand.np_randint lo hi e = (k, e') /\ lo <= k < hi.
Proof.
  intros Hlh. unfold Rand.np_randint, Rand.bind, Rand.np_raw, Rand.ret.
  destruct (Rand.next (Rand.np_random e)) as [x s].
  eexists; eexists; split; [reflexivity|].
  pose proof (Z.mod_pos_bound (Z.of_N x) (hi - lo)). lia.
Qed.

(** One monadic step of a goal about a computation that draws. *)
Ltac draw :=
  unfold Rand.bind, Rand.ret;
  match goal with
  | |- context [Rand.np_randint ?lo ?hi ?e] =>
      let k := fresh "k" in
      let e' := fresh "e" in
      let Hk := fresh "Hk" in
      let Hb := fresh "Hb" in
      destruct (np_randint_spec lo hi e) as (k & e' & Hk & Hb);
      [lia | rewrite Hk; clear Hk]
  | |- context [Rand.np_uniform ?e] =>
      let u := fresh "u" in
      let e' := fresh "e" in
      destruct (Rand.np_uniform e) as [u e']
  end.

(** Reduce record projections without touching the arithmetic. *)
Ltac fields :=
  unfold with_queue_ns, with_queue_ew, with_phase, with_time_in_phase;
  cbn [fst snd position queue_ns queue_ew current_phase time_in_phase].

Lemma reset_intersection_sane x e : sane (fst (reset_intersection x e)).
Proof.
  unfold reset_intersection. do 2 draw. unfold sane. simpl. lia.
Qed.

Lemma arrive_sane factor x e : sane x -> sane (fst (arrive factor x e)).
Proof.
  unfold sane, arrive. intros Hx. do 2 draw.
  destruct (Qltb _ _).
  - draw. draw. destruct (Qltb _ _); [draw|]; simpl; lia.
  - draw. destruct (Qltb _ _); [draw|]; simpl; lia.
Qed.

Lemma apply_action_queues action x :
  queue_ns (apply_action action x) = queue_ns x /\
  queue_ew (apply_action action x) = queue_ew x /\
  (time_in_phase (apply_action action x) = time_in_phase x \/
   time_in_phase (apply_action action x) = 0).
Proof.
  unfold apply_action.
  repeat match goal with
         | |- context [if ?b then _ else _] => destruct b
         end; simpl; auto.
Qed.

Lemma control_sane action x e : sane x -> sane (fst (control action x e)).
Proof.
  unfold sane, control, traffic_flow. intros Hx.
  destruct (apply_action_queues action x) as (Hns & Hew & Ht).
  remember (apply_action action x) as y eqn:Hy. clear Hy.
  unfold Rand.bind.
  destruct (current_phase y =? 0); do 2 draw; fields; lia.
Qed.

(** The increment of the timer comes before the penalty is read, so the
    penalty of the reward formula is never charged. *)
Lemma control_reward action x e :
  0 <= time_in_phase x ->
  let x' := fst (control action x e) in
  reward_of x' = - (queue_ns x' + queue_ew x').
Proof.
  intros Ht. unfold control, traffic_flow.
  destruct (apply_action_queues action x) as (_ & _ & Ht').
  remember (apply_action action x) as y eqn:Hy. clear Hy.
  unfold Rand.bind.
  destruct (current_phase y =? 0); do 2 draw; unfold reward_of; fields;
    (destruct (time_in_phase y + 1 =? 0) eqn:E;
     [apply Z.eqb_eq in E; lia | lia]).
Qed.

Lemma fresh_sane r c : sane (fresh r c).
Proof. unfold sane, fresh. simpl. lia. Qed.

Lemma place_row_sane cols r st :
  all_sane (snd st) -> all_sane (snd (place_row cols st r)).
Proof.
  unfold place_row. revert st.
  induction cols as [|c cols IH]; intros [id d] Hd; simpl in *; [easy|].
  apply IH. simpl. apply DictFacts.set_Forall; [exact Hd|].
  apply fresh_sane.
Qed.

Lemma init_sane grid num e : init grid num = Some e -> all_sane (intersections e).
Proof.
  unfold init, _initialize_intersections.
  destruct (num <? 0); [discriminate|]. destruct grid as [rows cols].
  intros [= <-]. simpl.
  generalize (linspace_int (rows - 1) (Z.sqrt num)) as rs.
  assert (H0 : all_sane (snd ((0, []) : Z * Dict.t intersection)))
    by constructor.
  revert H0. generalize ((0, []) : Z * Dict.t intersection) as st.
  intros st Hst rs. revert st Hst.
  induction rs as [|r rs IH]; intros st Hst; simpl; [exact Hst|].
  apply IH. now apply place_row_sane.
Qed.

Lemma reset_sane enc e rng : all_sane (intersections (fst (fst (reset enc e rng)))).
Proof.
  unfold reset, Rand.bind, Rand.ret.
  pose proof (DictFacts.update_each_Forall (fun _ => True) sane
                reset_intersection
                (fun v e _ => reset_intersection_sane v e)
                (intersections e) rng) as H.
  destruct (Dict.update_each reset_intersection (intersections e) rng)
    as [d rng'].
  simpl in *. apply H. apply Forall_forall. intros; exact I.
Qed.

Lemma update_traffic_flow_sane e rng :
  all_sane (intersections e) ->
  all_sane (intersections (fst (_update_traffic_flow e rng))).
Proof.
  intros He. unfold _update_traffic_flow, Rand.bind, Rand.ret.
  pose proof (DictFacts.update_each_Forall sane sane
                (arrive (traffic_factor (current_time e)))
                (fun v e H => arrive_sane _ v e H)
                (intersections e) rng He) as H.
  destruct (Dict.update_each _ (intersections e) rng) as [d rng'].
  exact H.
Qed.

(** The two ways one entry of the action map is handled. *)
Lemma process_cases st i action rng :
  (Dict.get (tick_intersections st) i = None /\
   process st (i, action) rng = (st, rng)) \/
  (exists x,
      Dict.get (tick_intersections st) i = Some x /\
      let x' := fst (control action x rng) in
      process st (i, action) rng
      = (mkTick (Dict.set (tick_intersections st) i x')
                (Dict.set (tick_rewards st) i (reward_of x'))
                (Dict.set (tick_info st) i (info_of x')),
         snd (control action x rng))).
Proof.
  unfold process.
  destruct (Dict.get (tick_intersections st) i) as [x|]; [right|left; auto].
  exists x. split; [reflexivity|]. unfold Rand.bind, Rand.ret.
  now destruct (control action x rng).
Qed.

Lemma process_sane st ia rng :
  all_sane (tick_intersections st) ->
  all_sane (tick_intersections (fst (process st ia rng))).
Proof.
  intros Hst. destruct ia as [i action].
  destruct (process_cases st i action rng) as [[_ ->]|(x & Hx & ->)];
    [exact Hst|].
  simpl. apply DictFacts.set_Forall; [exact Hst|]. simpl.
  apply control_sane.
  apply DictFacts.get_in in Hx.
  unfold all_sane in Hst. rewrite Forall_forall in Hst.
  exact (Hst _ Hx).
Qed.

Lemma process_all_sane actions st rng :
  all_sane (tick_intersections st) ->
  all_sane (tick_intersections (fst (process_all st actions rng))).
Proof.
  revert st rng. induction actions as [|ia rest IH]; intros st rng Hst;
    simpl; [exact Hst|].
  unfold Rand.bind.
  pose proof (process_sane st ia rng Hst) as H1.
  destruct (process st ia rng) as [st' rng']. now apply IH.
Qed.

Lemma step_sane enc e actions rng :
  all_sane (intersections e) ->
  all_sane (intersections (fst (fst (step enc e actions rng)))).
Proof.
  intros He. unfold step, Rand.bind, Rand.ret.
  pose proof (update_traffic_flow_sane (tick_clock e) rng He) as H1.
  destruct (_update_traffic_flow (tick_clock e) rng) as [e1 rng1].
  pose proof (process_all_sane actions (mkTick (intersections e1) [] [])
                rng1 H1) as H2.
  destruct (process_all _ actions rng1) as [st rng2]. exact H2.
Qed.

Lemma run_sane enc calls e rng :
  all_sane (intersections e) ->
  all_sane (intersections (fst (run enc e calls rng))).
Proof.
  revert e rng. induction calls as [|c rest IH]; intros e rng He; simpl;
    [exact He|].
  unfold Rand.bind.
  assert (H1 : all_sane (intersections (fst (perform enc e c rng)))).
  { destruct c as [|actions]; simpl; unfold Rand.bind, Rand.ret.
    - pose proof (reset_sane enc e rng) as H.
      now destruct (reset enc e rng) as [[e' o] rng'].
    - pose proof (step_sane enc e actions rng He) as H.
      now destruct (step enc e actions rng) as [[e' o] rng']. }
  destruct (perform enc e c rng) as [e' rng']. now apply IH.
Qed.

(** C5: after any sequence of [reset] and [step] calls, with any actions
    and any random draws, both queues of every intersection lie in
    [0..30]. *)
Theorem queues_within_bounds enc grid num e0 calls rng i x :
  init grid num = Some e0 ->
  Dict.get (intersections (fst (run enc e0 calls rng))) i = Some x ->
  (0 <= queue_ns x <= 30) /\ (0 <= queue_ew x <= 30).
Proof.
  intros Hinit Hget.
  pose proof (run_sane enc calls e0 rng (init_sane _ _ _ Hinit)) as H.
  unfold all_sane in H. rewrite Forall_forall in H.
  apply DictFacts.get_in in Hget. destruct (H _ Hget) as (Hns & Hew & _).
  now split.
Qed.

Lemma queues_within_bounds_witness :
  init (10, 10) 4 = Some grid4 /\
  Dict.get (intersections
              (fst (run flat_encoding grid4
                        [CallReset; CallStep [(0, 1); (2, 3)]]
                        (Rand.mkEntropy [7; 12; 5; 9; 31; 2; 8; 4]%N [])))) 0
  = Some (mkIntersection (0, 0) 8 0 1 1) /\
  (0 <= 8 <= 30) /\ (0 <= 0 <= 30).
Proof.
  split; [reflexivity|]. split; [vm_compute; reflexivity|].
  apply (queues_within_bounds flat_encoding (10, 10) 4 grid4
           [CallReset; CallStep [(0, 1); (2, 3)]]
           (Rand.mkEntropy [7; 12; 5; 9; 31; 2; 8; 4]%N []) 0
           (mkIntersection (0, 0) 8 0 1 1));
    [reflexivity | vm_compute; reflexivity].
Defined.

End EnvFacts.

(** ** The environment: which intersections a step touches *)

Module StepFacts.
Import Env Inv.

Lemma process_keys st ia rng :
  Dict.keys (tick_intersections (fst (process st ia rng)))
  = Dict.keys (tick_intersections st).
Proof.
  destruct ia as [i action].
  destruct (EnvFacts.process_cases st i action rng)
    as [[_ ->]|(x & Hx & ->)]; [reflexivity|].
  simpl. apply DictFacts.keys_set_present.
  unfold Dict.mem. now rewrite Hx.
Qed.

Lemma filter_known {V W} (d : Dict.t V) (d' : Dict.t W)
  (actions : list (Z * Z)) :
  Dict.keys d = Dict.keys d' ->
  filter (fun ia => Dict.mem d (fst ia)) actions
  = filter (fun ia => Dict.mem d' (fst ia)) actions.
Proof.
  intros Hk. apply filter_ext. intros ia.
  now apply DictFacts.mem_same_keys.
Qed.

(** Entries for unknown ids can be dropped from the action map without
    changing anything, the remaining random draws included. *)
Lemma process_all_filter actions st rng :
  process_all st actions rng
  = process_all st
      (filter (fun ia => Dict.mem (tick_intersections st) (fst ia)) actions)
      rng.
Proof.
  revert st rng. induction actions as [|[i action] rest IH]; intros st rng;
    [reflexivity|].
  cbn [filter fst].
  pose proof (process_keys st (i, action) rng) as Hkeys.
  destruct (EnvFacts.process_cases st i action rng)
    as [[Hx Hp]|(x & Hx & Hp)].
  - unfold Dict.mem. rewrite Hx. cbn [process_all]. unfold Rand.bind.
    rewrite Hp. apply IH.
  - unfold Dict.mem at 1. rewrite Hx. cbn [process_all]. unfold Rand.bind.
    destruct (process st (i, action) rng) as [st' rng'].
    rewrite IH. f_equal. now apply filter_known.
Qed.

Lemma process_all_untouched actions st rng i :
  ~ In i (map fst actions) ->
  let st' := fst (process_all st actions rng) in
  Dict.get (tick_intersections st') i = Dict.get (tick_intersections st) i /\
  Dict.get (tick_rewards st') i = Dict.get (tick_rewards st) i /\
  Dict.get (tick_info st') i = Dict.get (tick_info st) i.
Proof.
  revert st rng. induction actions as [|[j action] rest IH]; intros st rng Hi;
    [now cbn|].
  cbn [map fst In] in Hi. cbn [process_all]. unfold Rand.bind.
  assert (Hp : Dict.get (tick_intersections (fst (process st (j, action) rng))) i
               = Dict.get (tick_intersections st) i /\
               Dict.get (tick_rewards (fst (process st (j, action) rng))) i
               = Dict.get (tick_rewards st) i /\
               Dict.get (tick_info (fst (process st (j, action) rng))) i
               = Dict.get (tick_info st) i).
  { destruct (EnvFacts.process_cases st j action rng)
      as [[_ ->]|(x & _ & ->)]; [now cbn|].
    cbn [fst tick_intersections tick_rewards tick_info].
    rewrite !DictFacts.get_set_other by (intros ->; tauto). auto. }
  destruct (process st (j, action) rng) as [st1 rng1].
  cbn [fst] in Hp. destruct Hp as (H1 & H2 & H3).
  destruct (IH st1 rng1) as (G1 & G2 & G3); [tauto|].
  cbn zeta in *. rewrite G1, G2, G3. auto.
Qed.

Lemma process_all_rewarded actions st rng i :
  Dict.mem (tick_rewards (fst (process_all st actions rng))) i = true <->
  Dict.mem (tick_rewards st) i = true \/
  (In i (map fst actions) /\ Dict.mem (tick_intersections st) i = true).
Proof.
  revert st rng. induction actions as [|[j action] rest IH]; intros st rng.
  - cbn. tauto.
  - cbn [process_all map fst In]. unfold Rand.bind.
    pose proof (process_keys st (j, action) rng) as Hkeys.
    assert (Hr : Dict.mem (tick_rewards (fst (process st (j, action) rng))) i
                 = Dict.mem (tick_rewards st) i
                   || ((i =? j) && Dict.mem (tick_intersections st) j)).
    { destruct (EnvFacts.process_cases st j action rng)
        as [[Hx ->]|(x & Hx & ->)].
      - unfold Dict.mem at 3. rewrite Hx. cbn [fst].
        now rewrite andb_false_r, orb_false_r.
      - unfold Dict.mem at 3. rewrite Hx.
        cbn [fst tick_rewards]. rewrite DictFacts.mem_set.
        rewrite andb_true_r. apply orb_comm. }
    destruct (process st (j, action) rng) as [st1 rng1]. cbn [fst] in *.
    rewrite IH, Hr.
    rewrite (DictFacts.mem_same_keys (tick_intersections st1)
               (tick_intersections st) i Hkeys).
    rewrite orb_true_iff, andb_true_iff, Z.eqb_eq.
    split.
    + intros [[H1|[-> H1]]|[H1 H2]]; auto.
    + intros [H1|[[->|H1] H2]]; auto.
Qed.

Lemma process_coherent st ia rng :
  coherent st -> coherent (fst (process st ia rng)).
Proof.
  intros Hst. destruct ia as [j action].
  destruct (EnvFacts.process_cases st j action rng)
    as [[_ ->]|(x & _ & ->)]; [exact Hst|].
  intros i. cbn [fst tick_intersections tick_rewards tick_info].
  destruct (Z.eq_dec i j) as [->|Hij].
  - rewrite !DictFacts.get_set_same. eauto.
  - rewrite !DictFacts.get_set_other by exact Hij. apply Hst.
Qed.

Lemma process_all_coherent actions st rng :
  coherent st -> coherent (fst (process_all st actions rng)).
Proof.
  revert st rng. induction actions as [|ia rest IH]; intros st rng Hst;
    [exact Hst|].
  cbn [process_all]. unfold Rand.bind.
  pose proof (process_coherent st ia rng Hst) as H1.
  destruct (process st ia rng) as [st1 rng1]. now apply IH.
Qed.

Lemma process_unpenalised st ia rng :
  all_sane (tick_intersections st) ->
  unpenalised st -> unpenalised (fst (process st ia rng)).
Proof.
  intros Hsane Hst. destruct ia as [j action].
  destruct (EnvFacts.process_cases st j action rng)
    as [[_ ->]|(x & Hx & ->)]; [exact Hst|].
  intros i r. cbn [fst tick_intersections tick_rewards tick_info].
  destruct (Z.eq_dec i j) as [->|Hij].
  - rewrite !DictFacts.get_set_same. intros [= <-].
    eexists. split; [reflexivity|]. apply EnvFacts.control_reward.
    apply DictFacts.get_in in Hx.
    unfold all_sane in Hsane. rewrite Forall_forall in Hsane.
    apply (Hsane _ Hx).
  - rewrite !DictFacts.get_set_other by exact Hij. apply Hst.
Qed.

Lemma process_all_unpenalised actions st rng :
  all_sane (tick_intersections st) ->
  unpenalised st -> unpenalised (fst (process_all st actions rng)).
Proof.
  revert st rng. induction actions as [|ia rest IH]; intros st rng Hs Hst;
    [exact Hst|].
  cbn [process_all]. unfold Rand.bind.
  pose proof (process_unpenalised st ia rng Hs Hst) as H1.
  pose proof (EnvFacts.process_sane st ia rng Hs) as H2.
  destruct (process st ia rng) as [st1 rng1]. now apply IH.
Qed.

Lemma update_traffic_flow_keys e rng :
  Dict.keys (intersections (fst (_update_traffic_flow e rng)))
  = Dict.keys (intersections e).
Proof.
  unfold _update_traffic_flow, Rand.bind, Rand.ret.
  pose proof (DictFacts.update_each_keys
                (arrive (traffic_factor (current_time e)))
                (intersections e) rng) as H.
  now destruct (Dict.update_each _ (intersections e) rng).
Qed.

(** [step] seen as the arrival process followed by the loop. *)
Lemma step_unfold enc e actions rng :
  let e1 := fst (_update_traffic_flow (tick_clock e) rng) in
  let rng1 := snd (_update_traffic_flow (tick_clock e) rng) in
  let st := fst (process_all (mkTick (intersections e1) [] []) actions rng1) in
  let e2 := with_intersections e1 (tick_intersections st) in
  step enc e actions rng
  = (e2, mkResult (_get_state enc e2) (tick_rewards st)
                  (max_steps e2 <=? current_step e2) (tick_info st),
     snd (process_all (mkTick (intersections e1) [] []) actions rng1)).
Proof.
  unfold step, Rand.bind, Rand.ret.
  destruct (_update_traffic_flow (tick_clock e) rng) as [e1 rng1].
  cbn [fst snd].
  now destruct (process_all (mkTick (intersections e1) [] []) actions rng1).
Qed.

(** The frame of [step].  Entries for unknown ids can be removed from the
    action map without any change to the resulting environment, the
    returned values or the random draws left; an id has a reward (and an
    info entry) exactly when it was supplied and exists, both belonging
    to its record after the step; an intersection without a supplied
    action is left as the arrival process made it. *)
Lemma step_frame_and_entries enc e actions rng :
  let known := fun ia : Z * Z => Dict.mem (intersections e) (fst ia) in
  let arrived := fst (_update_traffic_flow (tick_clock e) rng) in
  let e' := fst (fst (step enc e actions rng)) in
  let r := snd (fst (step enc e actions rng)) in
  step enc e actions rng = step enc e (filter known actions) rng /\
  (forall i,
      Dict.mem (rewards r) i = true <->
      In i (map fst actions) /\ Dict.mem (intersections e) i = true) /\
  (forall i,
      match Dict.get (rewards r) i with
      | Some v =>
          exists x, Dict.get (intersections e') i = Some x /\
                    v = reward_of x /\
                    Dict.get (info r) i = Some (info_of x)
      | None => Dict.get (info r) i = None
      end) /\
  (forall i,
      ~ In i (map fst actions) ->
      Dict.get (intersections e') i = Dict.get (intersections arrived) i).
Proof.
  intros known arrived e' r. subst e' r.
  pose proof (update_traffic_flow_keys (tick_clock e) rng) as Hkeys.
  fold arrived in Hkeys. cbn [tick_clock intersections] in Hkeys.
  rewrite !step_unfold. fold arrived. cbn zeta.
  cbn [fst snd rewards info with_intersections intersections].
  set (rng1 := snd (_update_traffic_flow (tick_clock e) rng)).
  set (st0 := mkTick (intersections arrived) [] []).
  assert (Hf : filter known actions
               = filter (fun ia => Dict.mem (tick_intersections st0) (fst ia))
                        actions).
  { unfold known. apply filter_known. symmetry. exact Hkeys. }
  split; [|split; [|split]].
  - rewrite Hf, <- process_all_filter. reflexivity.
  - intros i. rewrite process_all_rewarded.
    rewrite (DictFacts.mem_same_keys (tick_intersections st0)
               (intersections e) i Hkeys).
    cbn [tick_rewards st0]. unfold Dict.mem at 1. cbn [Dict.get].
    split; [intros [Hm|Hm]; [discriminate Hm | exact Hm] | auto].
  - intros i. apply (process_all_coherent actions st0 rng1).
    intros j. reflexivity.
  - intros i Hi.
    now destruct (process_all_untouched actions st0 rng1 i Hi) as (H1 & _).
Qed.

(** In every state the environment can reach, each reward a step
    returns is minus the sum of the two queues after the step, whether
    or not the phase changed. *)
Lemma rewards_are_minus_queues enc grid num e0 calls rng actions rng' i v :
  init grid num = Some e0 ->
  let e := fst (run enc e0 calls rng) in
  let out := fst (step enc e actions rng') in
  Dict.get (rewards (snd out)) i = Some v ->
  exists x, Dict.get (intersections (fst out)) i = Some x /\
            v = - (queue_ns x + queue_ew x).
Proof.
  intros Hinit e out. subst out. rewrite step_unfold. cbn zeta.
  cbn [fst snd rewards with_intersections intersections].
  apply process_all_unpenalised.
  - cbn [tick_intersections]. apply EnvFacts.update_traffic_flow_sane.
    cbn [tick_clock intersections]. apply EnvFacts.run_sane.
    now apply (EnvFacts.init_sane grid num).
  - intros j w Hj. discriminate Hj.
Qed.

(** C1 at a concrete tick: the environment of [train_agent], all raw
    draws zero, action 1 (switch) for intersection 0.  The phase of
    intersection 0 changes from 0 to 1, its queues after the step are 1
    and 0, and the reward returned is -1: the switching penalty of 3 is
    not charged. *)
Theorem switch_penalty_not_charged :
  let out := fst (step flat_encoding grid4 [(0, 1)] zeros) in
  init (10, 10) 4 = Some grid4 /\
  option_map current_phase (Dict.get (intersections grid4) 0) = Some 0 /\
  Dict.get (intersections (fst out)) 0
  = Some (mkIntersection (0, 0) 1 0 1 1) /\
  Dict.get (rewards (snd out)) 0 = Some (-1) /\
  - (1 + 0 + 3) <> -1.
Proof. vm_compute. repeat split; discriminate. Qed.

End StepFacts.

(** ** numpy helpers and the replay buffer *)

Module BufferFacts.
Import Agent AgentSpec.

Lemma append_maxlen {A} (d : deque A) x : maxlen (append d x) = maxlen d.
Proof. reflexivity. Qed.

Lemma append_items {A} (d : deque A) x :
  (length (items d) <= maxlen d)%nat ->
  items (append d x)
  = skipn (length (items d ++ [x]) - maxlen d) (items d ++ [x]) /\
  (length (items (append d x)) <= maxlen d)%nat.
Proof.
  intros Hd. unfold append. cbn [items maxlen].
  rewrite length_app. cbn [length].
  destruct (maxlen d <? length (items d) + 1)%nat eqn:E.
  - apply Nat.ltb_lt in E.
    replace (length (items d) + 1 - maxlen d)%nat with 1%nat by lia.
    split; [reflexivity|].
    destruct (items d ++ [x]) as [|y l] eqn:El.
    + simpl. lia.
    + apply (f_equal (@length A)) in El. rewrite length_app in El.
      simpl in *. lia.
  - apply Nat.ltb_ge in E.
    replace (length (items d) + 1 - maxlen d)%nat with 0%nat by lia.
    split; [reflexivity|]. rewrite length_app. simpl. lia.
Qed.

(** A bounded deque holds the last [maxlen] of everything appended. *)
Lemma append_all_items {A} (xs : list A) (d : deque A) :
  (length (items d) <= maxlen d)%nat ->
  let d' := fold_left append xs d in
  maxlen d' = maxlen d /\
  (length (items d') <= maxlen d)%nat /\
  items d' = skipn (length (items d ++ xs) - maxlen d) (items d ++ xs).
Proof.
  revert d. induction xs as [|x xs IH]; intros d Hd; cbn [fold_left].
  - cbn zeta. rewrite app_nil_r.
    replace (length (items d) - maxlen d)%nat with 0%nat by lia.
    auto.
  - destruct (append_items d x Hd) as [Hi Hl].
    specialize (IH (append d x)). rewrite append_maxlen in IH.
    destruct (IH Hl) as (Hm & Hl' & Hit). cbn zeta.
    split; [exact Hm|]. split; [exact Hl'|].
    rewrite Hit, Hi.
    replace (items d ++ x :: xs) with ((items d ++ [x]) ++ xs)
      by now rewrite <- app_assoc.
    set (l := items d ++ [x]) in *.
    set (c := (length l - maxlen d)%nat).
    assert (Hc : (c <= length l)%nat) by (unfold c; lia).
    assert (Hs : skipn c l ++ xs = skipn c (l ++ xs)).
    { rewrite skipn_app. now replace (c - length l)%nat with 0%nat by lia. }
    rewrite Hs, skipn_skipn. f_equal.
    rewrite length_skipn, !length_app. unfold c. lia.
Qed.

Lemma remember_all_memory {net} `{Approximator net}
  (ts : list transition) (a : agent net) :
  memory (remember_all a ts) = fold_left append ts (memory a).
Proof.
  unfold remember_all. revert a.
  induction ts as [|tr ts IH]; intros a; cbn [fold_left]; [reflexivity|].
  rewrite IH. destruct tr. reflexivity.
Qed.

(** C8: the replay memory of an agent never holds more than 2000
    transitions, and after any sequence of [remember] calls it holds the
    most recent 2000 of them (all of them when fewer) in the order they
    were stored; so after [2000 + k] calls the first [k] are gone. *)
Theorem memory_keeps_most_recent {net} `{Approximator net}
  (state_size action_size : Z) (model : net) (ts : list transition) :
  let a := remember_all (init state_size action_size model) ts in
  maxlen (memory a) = 2000%nat /\
  (length (items (memory a)) <= 2000)%nat /\
  items (memory a) = skipn (length ts - 2000) ts /\
  (forall k,
      (0 < k)%nat -> length ts = (2000 + k)%nat ->
      items (memory a) = skipn k ts /\
      length (items (memory a)) = 2000%nat).
Proof.
  cbn zeta. rewrite remember_all_memory.
  set (d0 := memory (init state_size action_size model)).
  assert (Hd0 : (length (items d0) <= maxlen d0)%nat)
    by (unfold d0; cbn; lia).
  destruct (append_all_items ts d0 Hd0) as (Hm & Hl & Hi).
  change (maxlen d0) with 2000%nat in *.
  change (items d0) with (@nil transition) in Hi. cbn [app] in Hi.
  split; [exact Hm|]. split; [exact Hl|]. split; [exact Hi|].
  intros k Hk Hlen. rewrite Hi, Hlen.
  replace (2000 + k - 2000)%nat with k by lia.
  split; [reflexivity|]. rewrite length_skipn. lia.
Qed.

(** *** [np.argmax] *)

Lemma Qltb_true a b : Qltb a b = true <-> (a < b)%Q.
Proof.
  unfold Qltb. rewrite negb_true_iff. split.
  - intros Hf. apply Qnot_le_lt. intros Hle.
    apply Qle_bool_iff in Hle. congruence.
  - intros Hlt. destruct (Qle_bool b a) eqn:E; [|reflexivity].
    apply Qle_bool_iff in E. exfalso. apply (Qlt_not_le _ _ Hlt E).
Qed.

Lemma Qltb_false a b : Qltb a b = false <-> (b <= a)%Q.
Proof.
  unfold Qltb. rewrite negb_false_iff. apply Qle_bool_iff.
Qed.

Lemma argmax_from_spec (l pre : list Q) (best_i : nat) (best : Q) :
  nth_error pre best_i = Some best ->
  (forall j x, nth_error pre j = Some x -> (x <= best)%Q) ->
  (forall j x, (j < best_i)%nat -> nth_error pre j = Some x -> (x < best)%Q) ->
  is_argmax (pre ++ l) (argmax_from best_i best (length pre) l).
Proof.
  revert pre best_i best.
  induction l as [|y l IH]; intros pre best_i best Hb Hmax Hfirst.
  - rewrite app_nil_r. cbn. exists best. auto.
  - cbn [argmax_from].
    assert (Hbi : (best_i < length pre)%nat)
      by (apply nth_error_Some; congruence).
    replace (pre ++ y :: l) with ((pre ++ [y]) ++ l)
      by now rewrite <- app_assoc.
    replace (S (length pre)) with (length (pre ++ [y]))
      by (rewrite length_app; simpl; lia).
    destruct (Qltb best y) eqn:E.
    + apply Qltb_true in E. apply IH.
      * rewrite nth_error_app2, Nat.sub_diag by lia. reflexivity.
      * intros j x. rewrite nth_error_app.
        destruct (j <? length pre)%nat.
        -- intros Hj. apply Qle_trans with best; [eauto|].
           now apply Qlt_le_weak.
        -- destruct (j - length pre)%nat as [|n]; cbn.
           ++ intros [= ->]. apply Qle_refl.
           ++ destruct n; discriminate.
      * intros j x Hj. rewrite nth_error_app1 by exact Hj.
        intros Hx. apply Qle_lt_trans with best; eauto.
    + apply Qltb_false in E. apply IH.
      * rewrite nth_error_app1 by exact Hbi. exact Hb.
      * intros j x. rewrite nth_error_app.
        destruct (j <? length pre)%nat; [eauto|].
        destruct (j - length pre)%nat as [|n]; cbn.
        -- now intros [= ->].
        -- destruct n; discriminate.
      * intros j x Hj. rewrite nth_error_app1 by lia. eauto.
Qed.

Lemma argmax_spec (l : list Q) :
  l <> [] ->
  exists k, argmax l = Some (Z.of_nat k) /\ is_argmax l k.
Proof.
  destruct l as [|x l]; [congruence|]. intros _.
  exists (argmax_from 0 x 1 l). split; [reflexivity|].
  apply (argmax_from_spec l [x] 0%nat x).
  - reflexivity.
  - intros [|[|j]] y; cbn; try discriminate.
    intros [= ->]. apply Qle_refl.
  - intros j y Hj. lia.
Qed.

Lemma is_argmax_bound l k : is_argmax l k -> (k < length l)%nat.
Proof.
  intros (m & Hm & _). apply nth_error_Some. congruence.
Qed.

(** *** Indexing *)

Lemma index_bound {A} (l : list A) i k :
  index l i = Some k -> (k < length l)%nat.
Proof.
  unfold index.
  destruct ((0 <=? i) && (i <? Z.of_nat (length l))) eqn:E1.
  - apply andb_true_iff in E1. destruct E1 as [H1 H2].
    apply Z.leb_le in H1. apply Z.ltb_lt in H2. intros [= <-]. lia.
  - destruct ((- Z.of_nat (length l) <=? i) && (i <? 0)) eqn:E2;
      [|discriminate].
    apply andb_true_iff in E2. destruct E2 as [H1 H2].
    apply Z.leb_le in H1. apply Z.ltb_lt in H2. intros [= <-]. lia.
Qed.

Lemma index_total {A} (l : list A) i :
  - Z.of_nat (length l) <= i < Z.of_nat (length l) ->
  exists k, index l i = Some k.
Proof.
  intros Hi. unfold index.
  destruct ((0 <=? i) && (i <? Z.of_nat (length l))) eqn:E1; [eauto|].
  destruct ((- Z.of_nat (length l) <=? i) && (i <? 0)) eqn:E2; [eauto|].
  exfalso. apply andb_false_iff in E1, E2.
  rewrite Z.leb_gt, Z.ltb_ge in E1, E2. lia.
Qed.

Lemma index_of_nat {A} (l : list A) k :
  (k < length l)%nat -> index l (Z.of_nat k) = Some k.
Proof.
  intros Hk. unfold index.
  destruct ((0 <=? Z.of_nat k) && (Z.of_nat k <? Z.of_nat (length l))) eqn:E.
  - now rewrite Nat2Z.id.
  - apply andb_false_iff in E. rewrite Z.leb_gt, Z.ltb_ge in E. lia.
Qed.

Lemma overwrite_at (l : list Q) k v :
  (k < length l)%nat ->
  overwritten l (firstn k l ++ v :: skipn (S k) l) k v.
Proof.
  intros Hk. unfold overwritten.
  assert (Hf : length (firstn k l) = k)
    by (rewrite length_firstn; lia).
  split; [|split].
  - rewrite length_app. cbn [length]. rewrite Hf, length_skipn. lia.
  - rewrite nth_error_app2, Hf, Nat.sub_diag by lia. reflexivity.
  - intros j Hj. rewrite nth_error_app, Hf.
    destruct (j <? k)%nat eqn:E.
    + rewrite nth_error_firstn, E. reflexivity.
    + apply Nat.ltb_ge in E.
      destruct (j - k)%nat as [|n] eqn:En; [lia|]. cbn [nth_error].
      rewrite nth_error_skipn. f_equal. lia.
Qed.

Lemma setitem_spec (l : list Q) i v l' :
  setitem l i v = Some l' ->
  exists k, index l i = Some k /\ overwritten l l' k v.
Proof.
  unfold setitem. destruct (index l i) as [k|] eqn:E; [|discriminate].
  intros [= <-]. exists k. split; [reflexivity|].
  apply overwrite_at. now apply index_bound in E.
Qed.

Lemma getitem_setitem (l : list Q) i v l' :
  setitem l i v = Some l' -> getitem l' i = Some v.
Proof.
  intros Hs. destruct (setitem_spec l i v l' Hs) as (k & Hk & Hlen & Hv & _).
  unfold getitem, index in *. rewrite Hlen, Hk. exact Hv.
Qed.

End BufferFacts.

(** ** The agent: acting and the exploration schedule *)

Module AgentFacts.
Import Agent AgentSpec.

Section WithNetwork.
Context {net : Type} `{Approximator net}.
Implicit Types (a : agent net) (rng : Rand.entropy).

(** C7: with [training=False], [act] draws nothing from either
    generator and returns the first position of a maximal action value
    of the primary network; any other call for which the primary
    network gives the same values returns the same action. *)
Theorem act_greedy_deterministic a (state : observation) rng :
  predict (primary_network a) state <> [] ->
  exists k,
    act a state false rng = Some (Z.of_nat k, rng) /\
    is_argmax (predict (primary_network a) state) k /\
    (forall a' state' rng',
        predict (primary_network a') state'
        = predict (primary_network a) state ->
        act a' state' false rng' = Some (Z.of_nat k, rng')).
Proof.
  intros Hne.
  destruct (BufferFacts.argmax_spec _ Hne) as (k & Hk & Hmax).
  exists k. unfold act, greedy. rewrite Hk.
  split; [reflexivity|]. split; [exact Hmax|].
  intros a' state' rng' ->. now rewrite Hk.
Qed.

(** C4: [replay] with fewer stored transitions than the batch size
    returns at once; the agent (memory, both networks, epsilon) and
    both generators are as before. *)
Theorem replay_short_memory_noop a (batch_size : Z) rng :
  Z.of_nat (length (items (memory a))) < batch_size ->
  replay a batch_size rng = Some (a, rng).
Proof.
  intros Hlt. unfold replay.
  destruct (Z.of_nat (length (items (memory a))) <? batch_size) eqn:E;
    [reflexivity|].
  apply Z.ltb_ge in E. lia.
Qed.

Lemma with_primary_idem a (p q : net) :
  with_primary (with_primary a p) q = with_primary a q.
Proof. reflexivity. Qed.

Lemma with_primary_same a : with_primary a (primary_network a) = a.
Proof. now destruct a. Qed.

(** Training changes the primary network and nothing else. *)
Lemma train_batch_frame (minibatch : list transition) a a' calls :
  train_batch a minibatch = Some (a', calls) ->
  a' = with_primary a (primary_network a').
Proof.
  revert a calls. induction minibatch as [|tr rest IH]; intros a calls.
  - cbn. intros [= <- _]. symmetry. apply with_primary_same.
  - cbn [train_batch].
    destruct (target_vector a tr) as [target_f|]; [|discriminate].
    destruct (train_batch _ rest) as [[a2 c2]|] eqn:E; [|discriminate].
    intros [= <- _]. apply IH in E. rewrite E at 1.
    apply with_primary_idem.
Qed.

(** The two ways a [replay] call can return. *)
Lemma replay_cases a batch_size rng a' rng' :
  replay a batch_size rng = Some (a', rng') ->
  (Z.of_nat (length (items (memory a))) < batch_size /\
   a' = a /\ rng' = rng) \/
  (0 <= batch_size <= Z.of_nat (length (items (memory a))) /\
   exists p, a' = decay_epsilon (with_primary a p)).
Proof.
  unfold replay.
  destruct (Z.of_nat (length (items (memory a))) <? batch_size) eqn:E1.
  - apply Z.ltb_lt in E1. intros [= <- <-]. left. auto.
  - apply Z.ltb_ge in E1.
    destruct (batch_size <? 0) eqn:E2; [discriminate|].
    apply Z.ltb_ge in E2.
    unfold Rand.bindE, Rand.lift, Rand.raise, Rand.retE.
    destruct (Rand.py_sample _ _ rng) as [minibatch rng1].
    destruct (train_batch a minibatch) as [[a1 calls]|] eqn:E3;
      [|discriminate].
    intros [= <- <-]. right. split; [lia|].
    apply train_batch_frame in E3. exists (primary_network a1).
    now rewrite <- E3.
Qed.

Lemma decay_epsilon_value a :
  epsilon (decay_epsilon a)
  = if Qltb (epsilon_min a) (epsilon a)
    then (epsilon a * epsilon_decay a)%Q else epsilon a.
Proof.
  unfold decay_epsilon. now destruct (Qltb (epsilon_min a) (epsilon a)).
Qed.

Lemma decay_epsilon_schedule a :
  epsilon_min (decay_epsilon a) = epsilon_min a /\
  epsilon_decay (decay_epsilon a) = epsilon_decay a.
Proof.
  unfold decay_epsilon. now destruct (Qltb (epsilon_min a) (epsilon a)).
Qed.

(** One [replay] call keeps the schedule and moves epsilon down, not
    below [epsilon_min * epsilon_decay]. *)
Lemma replay_epsilon a batch_size rng a' rng' :
  (0 <= epsilon_decay a)%Q -> (epsilon_decay a <= 1)%Q ->
  (0 <= epsilon_min a)%Q ->
  (epsilon_min a * epsilon_decay a <= epsilon a)%Q ->
  replay a batch_size rng = Some (a', rng') ->
  epsilon_min a' = epsilon_min a /\
  epsilon_decay a' = epsilon_decay a /\
  (epsilon a' <= epsilon a)%Q /\
  (epsilon_min a * epsilon_decay a <= epsilon a')%Q.
Proof.
  intros Hd0 Hd1 Hm Hfloor Hr.
  destruct (replay_cases _ _ _ _ _ Hr) as [(_ & -> & _)|(_ & p & ->)].
  - repeat split; auto. apply Qle_refl.
  - destruct (decay_epsilon_schedule (with_primary a p)) as [-> ->].
    rewrite decay_epsilon_value. cbn [with_primary epsilon epsilon_min
                                       epsilon_decay].
    split; [reflexivity|]. split; [reflexivity|].
    destruct (Qltb (epsilon_min a) (epsilon a)) eqn:E.
    + apply BufferFacts.Qltb_true in E. split; nra.
    + split; [apply Qle_refl | exact Hfloor].
Qed.

(** C2, as the code has it: over any number of successive [replay]
    calls epsilon does not increase and stays at or above
    [epsilon_min * epsilon_decay]; a call that processes a batch
    multiplies epsilon by [epsilon_decay] when it is strictly above
    [epsilon_min] and leaves it unchanged otherwise. *)
Theorem epsilon_decays_towards_floor a (batch_size : Z) (n : nat)
  rng a' rng' :
  (0 <= epsilon_decay a)%Q -> (epsilon_decay a <= 1)%Q ->
  (0 <= epsilon_min a)%Q ->
  (epsilon_min a * epsilon_decay a <= epsilon a)%Q ->
  replay_times n a batch_size rng = Some (a', rng') ->
  (epsilon a' <= epsilon a)%Q /\
  (epsilon_min a * epsilon_decay a <= epsilon a')%Q /\
  (forall a1 rng1 a2 rng2,
      replay a1 batch_size rng1 = Some (a2, rng2) ->
      batch_size <= Z.of_nat (length (items (memory a1))) ->
      epsilon a2
      = if Qltb (epsilon_min a1) (epsilon a1)
        then (epsilon a1 * epsilon_decay a1)%Q else epsilon a1).
Proof.
  intros Hd0 Hd1 Hm Hfloor Hrun.
  assert (Hseq : (epsilon a' <= epsilon a)%Q /\
                 (epsilon_min a * epsilon_decay a <= epsilon a')%Q).
  { revert a rng Hd0 Hd1 Hm Hfloor Hrun.
    induction n as [|n IH]; intros a rng Hd0 Hd1 Hm Hfloor.
    - cbn. intros [= <- _]. split; [apply Qle_refl | exact Hfloor].
    - cbn [replay_times]. unfold Rand.bindE.
      destruct (replay a batch_size rng) as [[a1 rng1]|] eqn:E;
        [|discriminate].
      intros Hrest.
      destruct (replay_epsilon _ _ _ _ _ Hd0 Hd1 Hm Hfloor E)
        as (Em & Ed & Hle & Hfl).
      destruct (IH a1 rng1) as [H1 H2]; rewrite ?Em, ?Ed; auto.
      rewrite Em, Ed in H2. split; [|exact H2].
      apply Qle_trans with (epsilon a1); assumption. }
  destruct Hseq as [H1 H2]. split; [exact H1|]. split; [exact H2|].
  intros a1 rng1 a2 rng2 Hr Hbatch.
  destruct (replay_cases _ _ _ _ _ Hr) as [(Hlt & _)|(_ & p & ->)];
    [lia|].
  now rewrite decay_epsilon_value.
Qed.

End WithNetwork.

Lemma act_greedy_deterministic_witness :
  predict (primary_network worked) sample_state <> [] /\
  exists k,
    act worked sample_state false Inv.zeros = Some (Z.of_nat k, Inv.zeros) /\
    is_argmax (predict (primary_network worked) sample_state) k /\
    (forall a' state' rng',
        predict (primary_network a') state'
        = predict (primary_network worked) sample_state ->
        act a' state' false rng' = Some (Z.of_nat k, rng')).
Proof.
  split; [cbn; discriminate|].
  apply (act_greedy_deterministic worked sample_state Inv.zeros).
  cbn; discriminate.
Defined.

Lemma replay_short_memory_noop_witness :
  Z.of_nat (length (items (memory blank))) < 32 /\
  replay blank 32 Inv.zeros = Some (blank, Inv.zeros).
Proof.
  split; [cbn; lia|].
  apply (replay_short_memory_noop blank 32 Inv.zeros). cbn; lia.
Defined.

Lemma epsilon_decays_towards_floor_witness :
  exists a' rng',
    replay_times 3 seasoned 1 Inv.zeros = Some (a', rng') /\
    (0 <= epsilon_decay seasoned)%Q /\ (epsilon_decay seasoned <= 1)%Q /\
    (0 <= epsilon_min seasoned)%Q /\
    (epsilon_min seasoned * epsilon_decay seasoned <= epsilon seasoned)%Q /\
    (epsilon a' <= epsilon seasoned)%Q /\
    (epsilon_min seasoned * epsilon_decay seasoned <= epsilon a')%Q /\
    (forall a1 rng1 a2 rng2,
        replay a1 1 rng1 = Some (a2, rng2) ->
        1 <= Z.of_nat (length (items (memory a1))) ->
        epsilon a2
        = if Qltb (epsilon_min a1) (epsilon a1)
          then (epsilon a1 * epsilon_decay a1)%Q else epsilon a1).
Proof.
  eexists. eexists. split; [reflexivity|].
  assert (H0 : (0 <= epsilon_decay seasoned)%Q) by (vm_compute; discriminate).
  assert (H1 : (epsilon_decay seasoned <= 1)%Q) by (vm_compute; discriminate).
  assert (H2 : (0 <= epsilon_min seasoned)%Q) by (vm_compute; discriminate).
  assert (H3 : (epsilon_min seasoned * epsilon_decay seasoned
                <= epsilon seasoned)%Q) by (vm_compute; discriminate).
  repeat (split; [assumption|]).
  eapply (epsilon_decays_towards_floor seasoned 1 3 Inv.zeros);
    [exact H0 | exact H1 | exact H2 | exact H3 | reflexivity].
Defined.

(** C2 as stated fails: from the initial epsilon 1, after 919 learning
    steps on a batch of one, epsilon is 0.995^919, below the minimum
    0.01 (the 918th value is still above it, so the 919th step
    multiplies once more); [max(epsilon_min, epsilon * epsilon_decay)]
    would have kept it at 0.01. *)
Lemma epsilon_falls_below_minimum :
  match replay_times 918 seasoned 1 Inv.zeros with
  | Some (a, rng) =>
      (epsilon_min a < epsilon a)%Q /\
      match replay a 1 rng with
      | Some (a', _) =>
          (epsilon a' < epsilon_min a')%Q /\
          ~ (epsilon a'
             == Qmax (epsilon_min a) (epsilon a * epsilon_decay a))%Q
      | None => False
      end
  | None => False
  end.
Proof. vm_compute. repeat split; discriminate. Qed.

End AgentFacts.

(** ** The agent: learning targets *)

Module LearningFacts.
Import Agent AgentSpec.

Lemma getitem_of_nat {A} (l : list A) (k : nat) :
  getitem l (Z.of_nat k) = nth_error l k.
Proof.
  unfold getitem. destruct (Nat.lt_ge_cases k (length l)) as [Hlt|Hge].
  - now rewrite BufferFacts.index_of_nat.
  - replace (nth_error l k) with (@None A)
      by (symmetry; now apply nth_error_None).
    destruct (index l (Z.of_nat k)) as [j|] eqn:E; [|reflexivity].
    exfalso. unfold index in E.
    destruct ((0 <=? Z.of_nat k) && (Z.of_nat k <? Z.of_nat (length l))) eqn:E1.
    + apply andb_true_iff in E1. rewrite Z.ltb_lt in E1. lia.
    + destruct ((- Z.of_nat (length l) <=? Z.of_nat k) && (Z.of_nat k <? 0)) eqn:E2;
        [|discriminate].
      apply andb_true_iff in E2. rewrite Z.ltb_lt in E2. lia.
Qed.

Lemma firstn_succ_nth {A} (l : list A) (k : nat) (x : A) :
  nth_error l k = Some x -> firstn (S k) l = firstn k l ++ [x].
Proof.
  revert k. induction l as [|y l IH]; intros [|k]; cbn; try discriminate.
  - now intros [= ->].
  - intros Hk. now rewrite <- (IH k Hk).
Qed.

Section WithNetwork.
Context {net : Type} `{Approximator net}.
Implicit Types (a : agent net) (tr : transition).

Lemma learning_target_rule a tr target :
  learning_target a tr = Some target ->
  (t_done tr = true -> target = t_reward tr) /\
  (t_done tr = false ->
   exists next_action q,
     is_argmax (predict (primary_network a) (t_next_state tr))
               next_action /\
     nth_error (predict (target_network a) (t_next_state tr)) next_action
     = Some q /\
     target = (t_reward tr + gamma a * q)%Q).
Proof.
  unfold learning_target. destruct (t_done tr).
  - intros [= <-]. split; [reflexivity | discriminate].
  - set (row := predict (primary_network a) (t_next_state tr)).
    destruct (argmax row) as [z|] eqn:Ez; [|discriminate].
    assert (Hne : row <> []) by (intros Hr; now rewrite Hr in Ez).
    destruct (BufferFacts.argmax_spec row Hne) as (k & Hk & Hmax).
    rewrite Hk in Ez. injection Ez as <-.
    rewrite getitem_of_nat.
    destruct (nth_error _ k) as [q|] eqn:Eq; [|discriminate].
    intros [= <-]. split; [discriminate|]. intros _.
    exists k, q. auto.
Qed.

Lemma target_vector_total (size : nat) a tr :
  (0 < size)%nat -> rows_of_size size -> indexes size tr ->
  exists target_f, target_vector a tr = Some target_f.
Proof.
  intros Hsize Hrows Hi. unfold target_vector.
  assert (Ht : exists target, learning_target a tr = Some target).
  { unfold learning_target. destruct (t_done tr); [eauto|].
    set (row := predict (primary_network a) (t_next_state tr)).
    assert (Hne : row <> []).
    { intros Hr. pose proof (Hrows (primary_network a) (t_next_state tr))
        as Hl. fold row in Hl. rewrite Hr in Hl. simpl in Hl. lia. }
    destruct (BufferFacts.argmax_spec row Hne) as (k & -> & Hmax).
    rewrite getitem_of_nat.
    apply BufferFacts.is_argmax_bound in Hmax.
    unfold row in Hmax. rewrite Hrows in Hmax.
    destruct (nth_error (predict (target_network a) (t_next_state tr)) k)
      as [q|] eqn:Eq; [eauto|].
    apply nth_error_None in Eq. rewrite Hrows in Eq. lia. }
  destruct Ht as [target ->].
  unfold setitem.
  destruct (BufferFacts.index_total
              (predict (primary_network a) (t_state tr)) (t_action tr))
    as [k ->]; [|eauto].
  rewrite Hrows. exact Hi.
Qed.

Lemma train_batch_total (size : nat) (minibatch : list transition) a :
  (0 < size)%nat -> rows_of_size size ->
  Forall (indexes size) minibatch ->
  exists a' calls, train_batch a minibatch = Some (a', calls).
Proof.
  intros Hsize Hrows Hall. revert a.
  induction Hall as [|tr rest Htr Hrest IH]; intros a; cbn [train_batch].
  - eauto.
  - destruct (target_vector_total size a tr Hsize Hrows Htr)
      as [target_f ->].
    destruct (IH (with_primary a (fit (primary_network a) (t_state tr)
                                      target_f)))
      as (a' & calls & ->).
    eauto.
Qed.

Lemma train_batch_length (minibatch : list transition) a a' calls :
  train_batch a minibatch = Some (a', calls) ->
  length calls = length minibatch.
Proof.
  revert a calls. induction minibatch as [|tr rest IH]; intros a calls;
    cbn [train_batch].
  - now intros [= _ <-].
  - destruct (target_vector a tr) as [target_f|]; [|discriminate].
    destruct (train_batch _ rest) as [[a2 c2]|] eqn:E; [|discriminate].
    intros [= <- <-]. cbn. f_equal. exact (IH _ _ E).
Qed.

(** The [k]-th sample is handled by the agent the first [k] samples
    leave behind, and its target row is the [k]-th recorded call. *)
Lemma train_batch_nth (minibatch : list transition) a a' calls k tr :
  train_batch a minibatch = Some (a', calls) ->
  nth_error minibatch k = Some tr ->
  exists ak ck target_f,
    train_batch a (firstn k minibatch) = Some (ak, ck) /\
    target_vector ak tr = Some target_f /\
    nth_error calls k = Some (t_state tr, target_f).
Proof.
  revert a calls k.
  induction minibatch as [|tr0 rest IH]; intros a calls k;
    [destruct k; discriminate|].
  cbn [train_batch].
  destruct (target_vector a tr0) as [f0|] eqn:E0; [|discriminate].
  destruct (train_batch _ rest) as [[a2 c2]|] eqn:E; [|discriminate].
  intros [= <- <-]. destruct k as [|k]; cbn [nth_error firstn].
  - intros [= <-]. exists a, [], f0. cbn. auto.
  - intros Hk. destruct (IH _ _ _ E Hk) as (ak & ck & tf & H1 & H2 & H3).
    exists ak, ((t_state tr0, f0) :: ck), tf.
    cbn [train_batch]. rewrite E0, H1. auto.
Qed.

Lemma train_batch_snoc (minibatch : list transition) a ak ck tr target_f :
  train_batch a minibatch = Some (ak, ck) ->
  target_vector ak tr = Some target_f ->
  train_batch a (minibatch ++ [tr])
  = Some (with_primary ak (fit (primary_network ak) (t_state tr) target_f),
          ck ++ [(t_state tr, target_f)]).
Proof.
  revert a ck. induction minibatch as [|tr0 rest IH]; intros a ck;
    cbn [train_batch app].
  - intros [= <- <-] ->. reflexivity.
  - destruct (target_vector a tr0) as [f0|]; [|discriminate].
    destruct (train_batch _ rest) as [[a2 c2]|] eqn:E; [|discriminate].
    intros [= <- <-] Ht. now rewrite (IH _ _ E Ht).
Qed.

(** C3: every sample of a minibatch gets the double-DQN target (the
    reward for a terminal transition; otherwise the reward plus
    [gamma] times the target network's value at the arg-max action of
    the primary network on the next state), computed with the primary
    network as the earlier samples of the batch left it.  With primary
    values [1, 5, 3, 2], target-network values [4, 4, 4, 4], gamma
    0.95 and reward -6 the arg-max action is 1 and the target is
    -2.2. *)
Theorem double_dqn_target a (minibatch : list transition) (size : nat) :
  (0 < size)%nat -> rows_of_size size ->
  Forall (indexes size) minibatch ->
  double_dqn_rule a minibatch /\
  (forall tr,
      t_done tr = false -> t_reward tr = (-6)%Q ->
      gamma a = (95 # 100)%Q ->
      predict (primary_network a) (t_next_state tr) = [1; 5; 3; 2]%Q ->
      predict (target_network a) (t_next_state tr) = [4; 4; 4; 4]%Q ->
      argmax (predict (primary_network a) (t_next_state tr)) = Some 1 /\
      exists target,
        learning_target a tr = Some target /\
        (target == - (22 # 10))%Q).
Proof.
  intros Hsize Hrows Hall. split.
  - destruct (train_batch_total size minibatch a Hsize Hrows Hall)
      as (a' & calls & Hrun).
    exists a', calls. split; [exact Hrun|]. intros k tr Hk.
    destruct (train_batch_nth _ _ _ _ _ _ Hrun Hk)
      as (ak & ck & target_f & Hpre & Hvec & Hcall).
    pose proof (AgentFacts.train_batch_frame _ _ _ _ Hpre) as Hframe.
    assert (Htn : target_network ak = target_network a)
      by (rewrite Hframe; reflexivity).
    assert (Hg : gamma ak = gamma a) by (rewrite Hframe; reflexivity).
    unfold target_vector in Hvec.
    destruct (learning_target ak tr) as [target|] eqn:Et; [|discriminate].
    exists ak, ck, target, target_f.
    destruct (learning_target_rule _ _ _ Et) as [Hdone Hlive].
    rewrite Htn, Hg in Hlive.
    repeat (split; [first [assumption | reflexivity]|]).
    split; [exact (BufferFacts.getitem_setitem _ _ _ _ Hvec)|].
    split; assumption.
  - intros tr Hd Hr Hg Hp Ht. unfold learning_target.
    rewrite Hd, Hp, Ht, Hr, Hg. split; [reflexivity|].
    eexists. split; [reflexivity|]. reflexivity.
Qed.

(** C6: for every sample of a minibatch, the row handed to [fit] is
    the primary network's current row for the sample's state with the
    entry at the sample's action replaced by the target; every other
    entry is the current estimate. *)
Theorem fit_row_overwrites_action_only a (minibatch : list transition)
  (size : nat) :
  (0 < size)%nat -> rows_of_size size ->
  Forall (indexes size) minibatch ->
  frame_rule a minibatch.
Proof.
  intros Hsize Hrows Hall.
  destruct (train_batch_total size minibatch a Hsize Hrows Hall)
    as (a' & calls & Hrun).
  exists a', calls. split; [exact Hrun|].
  split; [exact (train_batch_length _ _ _ _ Hrun)|].
  intros k tr Hk.
  destruct (train_batch_nth _ _ _ _ _ _ Hrun Hk)
    as (ak & ck & target_f & Hpre & Hvec & Hcall).
  pose proof (train_batch_snoc _ _ _ _ _ _ Hpre Hvec) as Hnext.
  rewrite <- (firstn_succ_nth _ _ _ Hk) in Hnext.
  unfold target_vector in Hvec.
  destruct (learning_target ak tr) as [target|] eqn:Et; [|discriminate].
  destruct (BufferFacts.setitem_spec _ _ _ _ Hvec) as (pos & Hpos & Hover).
  exists ak, ck, target, target_f, pos. auto 10.
Qed.

End WithNetwork.

Lemma row4_rows : @rows_of_size row4 _ 4.
Proof. intros [[[q0 q1] q2] q3] s. reflexivity. Qed.

Lemma double_dqn_target_witness :
  (0 < 4)%nat /\ @rows_of_size row4 _ 4 /\
  Forall (indexes 4) [worked_transition; numbered_transition 1] /\
  double_dqn_rule worked [worked_transition; numbered_transition 1] /\
  (forall tr,
      t_done tr = false -> t_reward tr = (-6)%Q ->
      gamma worked = (95 # 100)%Q ->
      predict (primary_network worked) (t_next_state tr) = [1; 5; 3; 2]%Q ->
      predict (target_network worked) (t_next_state tr) = [4; 4; 4; 4]%Q ->
      argmax (predict (primary_network worked) (t_next_state tr)) = Some 1 /\
      exists target,
        learning_target worked tr = Some target /\
        (target == - (22 # 10))%Q).
Proof.
  assert (Hall : Forall (indexes 4)
                        [worked_transition; numbered_transition 1])
    by (repeat constructor; cbn; lia).
  split; [lia|]. split; [exact row4_rows|]. split; [exact Hall|].
  apply (double_dqn_target worked
           [worked_transition; numbered_transition 1] 4);
    [lia | exact row4_rows | exact Hall].
Defined.

Lemma fit_row_overwrites_action_only_witness :
  (0 < 4)%nat /\ @rows_of_size row4 _ 4 /\
  Forall (indexes 4) [worked_transition; numbered_transition 1] /\
  frame_rule worked [worked_transition; numbered_transition 1].
Proof.
  assert (Hall : Forall (indexes 4)
                        [worked_transition; numbered_transition 1])
    by (repeat constructor; cbn; lia).
  split; [lia|]. split; [exact row4_rows|]. split; [exact Hall|].
  apply (fit_row_overwrites_action_only worked
           [worked_transition; numbered_transition 1] 4);
    [lia | exact row4_rows | exact Hall].
Defined.

(** The worked example run on the four-value approximator: the arg-max
    action is 1, the target is -6 + 0.95 * 4, and the row handed to
    [fit] keeps the estimates 1, 5 and 2 around it. *)
Lemma worked_example :
  argmax (predict (primary_network worked) sample_next) = Some 1 /\
  learning_target worked worked_transition
  = Some (-6 + (95 # 100) * 4)%Q /\
  (-6 + (95 # 100) * 4 == - (22 # 10))%Q /\
  target_vector worked worked_transition
  = Some [1; 5; -6 + (95 # 100) * 4; 2]%Q.
Proof. repeat split. Qed.

End LearningFacts.


(** ** Dictionaries related record by record *)

Module RelatedFacts.
Import Env EnvSpec.

Section Related.
Context {V : Type} (R : V -> V -> Prop).
Implicit Types (d : Dict.t V).

Lemma related_keys d d' : related R d d' -> Dict.keys d' = Dict.keys d.
Proof.
  induction 1 as [|[k v] [k' v'] d d' [Hk _] _ IH]; simpl in *;
    [reflexivity|].
  now rewrite IH, Hk.
Qed.

Lemma related_get d d' i :
  related R d d' ->
  match Dict.get d i with
  | Some x => exists x', Dict.get d' i = Some x' /\ R x x'
  | None => Dict.get d' i = None
  end.
Proof.
  induction 1 as [|[k v] [k' v'] d d' [Hk Hr] _ IH]; simpl in *;
    [reflexivity|].
  subst k'. destruct (i =? k); [eauto | exact IH].
Qed.

Lemma related_get_back d d' i x' :
  related R d d' -> Dict.get d' i = Some x' ->
  exists x, Dict.get d i = Some x /\ R x x'.
Proof.
  intros Hr Hg. pose proof (related_get d d' i Hr) as H.
  destruct (Dict.get d i) as [x|].
  - destruct H as (x'' & Hx & HR). exists x. split; [reflexivity|].
    congruence.
  - congruence.
Qed.

Lemma related_refl d : (forall x, R x x) -> related R d d.
Proof.
  intros Hrefl. induction d as [|kv d IH]; constructor; auto.
Qed.

Lemma related_set d i x x' :
  (forall y, R y y) ->
  Dict.get d i = Some x -> R x x' -> related R d (Dict.set d i x').
Proof.
  intros Hrefl. induction d as [|[k v] d IH]; simpl; [discriminate|].
  destruct (i =? k) eqn:E.
  - apply Z.eqb_eq in E. subst k. intros [= ->] Hr.
    constructor; [now split | now apply related_refl].
  - intros Hg Hr. constructor; [now split | now apply IH].
Qed.

Lemma update_each_related (f : V -> Rand.M V) :
  (forall v e, R v (fst (f v e))) ->
  forall d e, related R d (fst (Dict.update_each f d e)).
Proof.
  intros Hf d. induction d as [|[k v] d IH]; intros e; simpl.
  - constructor.
  - unfold Rand.bind. pose proof (Hf v e) as Hv.
    destruct (f v e) as [v' e1]. specialize (IH e1).
    destruct (Dict.update_each f d e1) as [r e2]. simpl in *.
    constructor; [now split | exact IH].
Qed.

End Related.

Lemma related_trans {V} (R S T : V -> V -> Prop) (d d' d'' : Dict.t V) :
  (forall x y z, R x y -> S y z -> T x z) ->
  related R d d' -> related S d' d'' -> related T d d''.
Proof.
  intros Hc H1. revert d''.
  induction H1 as [|kv kv' d d' [Hk Hr] _ IH]; intros d'' H2;
    inversion H2 as [|? kv'' ? d3 [Hk' Hs] H3]; subst; constructor.
  - split; [congruence | eauto].
  - now apply IH.
Qed.

Lemma related_weaken {V} (R S : V -> V -> Prop) (d d' : Dict.t V) :
  (forall x y, R x y -> S x y) -> related R d d' -> related S d d'.
Proof.
  intros Hi H. induction H as [|kv kv' d d' [Hk Hr] _ IH]; constructor; auto.
Qed.

(** *** Computations that leave the [random] module alone *)

Lemma np_only_ret {A} (x : A) : np_only (Rand.ret x).
Proof. intros e. reflexivity. Qed.

Lemma np_only_bind {A B} (m : Rand.M A) (k : A -> Rand.M B) :
  np_only m -> (forall x, np_only (k x)) -> np_only (Rand.bind m k).
Proof.
  intros Hm Hk e. unfold Rand.bind. specialize (Hm e).
  destruct (m e) as [x e1]. simpl in Hm. rewrite <- Hm. apply Hk.
Qed.

Lemma np_only_raw : np_only Rand.np_raw.
Proof.
  intros e. unfold Rand.np_raw. now destruct (Rand.next (Rand.np_random e)).
Qed.

Lemma np_only_randint lo hi : np_only (Rand.np_randint lo hi).
Proof.
  apply np_only_bind; [apply np_only_raw | intros; apply np_only_ret].
Qed.

Lemma np_only_uniform : np_only Rand.np_uniform.
Proof.
  apply np_only_bind; [apply np_only_raw | intros; apply np_only_ret].
Qed.

Lemma np_only_update_each {V} (f : V -> Rand.M V) (d : Dict.t V) :
  (forall v, np_only (f v)) -> np_only (Dict.update_each f d).
Proof.
  intros Hf. induction d as [|[k v] d IH]; simpl; [apply np_only_ret|].
  apply np_only_bind; [apply Hf|]. intros v'.
  apply np_only_bind; [exact IH|]. intros r. apply np_only_ret.
Qed.

Ltac draws_numpy :=
  repeat first
    [ apply np_only_ret | apply np_only_randint | apply np_only_uniform
    | apply np_only_bind; [|intros ?]
    | match goal with |- np_only (if ?b then _ else _) => destruct b end
    | match goal with |- np_only (match ?o with _ => _ end) => destruct o end ].

Lemma np_only_reset_intersection x : np_only (reset_intersection x).
Proof. unfold reset_intersection. draws_numpy. Qed.

Lemma np_only_arrive factor x : np_only (arrive factor x).
Proof. unfold arrive. draws_numpy. Qed.

Lemma np_only_control action x : np_only (control action x).
Proof. unfold control, traffic_flow. draws_numpy. Qed.

Lemma np_only_process st ia : np_only (process st ia).
Proof.
  unfold process. destruct ia as [i action].
  destruct (Dict.get (tick_intersections st) i); [|apply np_only_ret].
  apply np_only_bind; [apply np_only_control | intros; apply np_only_ret].
Qed.

Lemma np_only_process_all actions st : np_only (process_all st actions).
Proof.
  revert st. induction actions as [|ia rest IH]; intros st; simpl;
    [apply np_only_ret|].
  apply np_only_bind; [apply np_only_process | intros; apply IH].
Qed.

Lemma np_only_update_traffic_flow e : np_only (_update_traffic_flow e).
Proof.
  unfold _update_traffic_flow. apply np_only_bind.
  - apply np_only_update_each. intros v. apply np_only_arrive.
  - intros; apply np_only_ret.
Qed.

Lemma np_only_step enc e actions : np_only (step enc e actions).
Proof.
  unfold step. apply np_only_bind; [apply np_only_update_traffic_flow|].
  intros e1. apply np_only_bind; [apply np_only_process_all|].
  intros; apply np_only_ret.
Qed.

Lemma np_only_reset enc e : np_only (reset enc e).
Proof.
  unfold reset. apply np_only_bind.
  - apply np_only_update_each. intros v. apply np_only_reset_intersection.
  - intros; apply np_only_ret.
Qed.

End RelatedFacts.

(** ** The environment: what each call does to an intersection *)

Module EnvExtra.
Import Env Inv EnvSpec.

Lemma reset_intersection_restarted x e :
  restarted x (fst (reset_intersection x e)).
Proof.
  unfold reset_intersection, restarted. do 2 EnvFacts.draw.
  cbn [fst position queue_ns queue_ew current_phase time_in_phase].
  repeat split; lia.
Qed.

Lemma arrive_arrived factor x e : arrived x (fst (arrive factor x e)).
Proof.
  unfold arrive, arrived. do 2 EnvFacts.draw.
  destruct (Qltb _ _).
  - EnvFacts.draw. EnvFacts.draw.
    destruct (Qltb _ _); [EnvFacts.draw|]; EnvFacts.fields;
      repeat split; lia.
  - EnvFacts.draw.
    destruct (Qltb _ _); [EnvFacts.draw|]; EnvFacts.fields;
      repeat split; lia.
Qed.

Lemma apply_action_signal action x :
  let y := apply_action action x in
  position y = position x /\
  queue_ns y = queue_ns x /\ queue_ew y = queue_ew x /\
  current_phase y = commanded action (current_phase x) /\
  time_in_phase y
  = (if current_phase y =? current_phase x then time_in_phase x else 0).
Proof.
  unfold apply_action, commanded.
  destruct (Z.eqb_spec action 0); destruct (Z.eqb_spec action 1);
    destruct (Z.eqb_spec action 2); destruct (Z.eqb_spec action 3);
    try lia;
    destruct (Z.eqb_spec (current_phase x) 0);
    destruct (Z.eqb_spec (current_phase x) 1); try lia;
    EnvFacts.fields;
    match goal with
    | |- context [?a =? ?b] => destruct (Z.eqb_spec a b)
    end; repeat split; lia.
Qed.

Lemma control_controlled action x e :
  controlled action x (fst (control action x e)).
Proof.
  unfold controlled, control, traffic_flow.
  destruct (apply_action_signal action x) as (Hp & Hns & Hew & Hph & Ht).
  cbn zeta in *.
  remember (apply_action action x) as y eqn:Hy. clear Hy.
  unfold Rand.bind.
  destruct (Z.eqb_spec (current_phase y) 0) as [E|E]; do 2 EnvFacts.draw;
    EnvFacts.fields; rewrite <- Hph;
    (split; [exact Hp|]); (split; [reflexivity|]);
    (split; [rewrite Ht; now destruct (current_phase y =? current_phase x)|]);
    exists k, k0; rewrite <- Hns, <- Hew;
    repeat split; solve [assumption | lia | contradiction].
Qed.

Lemma keeps_refl x : keeps x x.
Proof. unfold keeps. auto. Qed.

Lemma keeps_trans x y z : keeps x y -> keeps y z -> keeps x z.
Proof.
  unfold keeps. intros (P1 & Q1 & T1) (P2 & Q2 & T2).
  split; [congruence | auto].
Qed.

Lemma restarted_keeps x y : restarted x y -> keeps x y.
Proof.
  unfold restarted, keeps. intros (Hp & _ & _ & Hph & Ht).
  split; [exact Hp|]. split; intros _; [now left | lia].
Qed.

Lemma arrived_keeps x y : arrived x y -> keeps x y.
Proof.
  unfold arrived, keeps. intros (Hp & Hph & Ht & _).
  rewrite Hph, Ht. auto.
Qed.

Lemma commanded_phase action p :
  p = 0 \/ p = 1 -> commanded action p = 0 \/ commanded action p = 1.
Proof.
  unfold commanded. intros Hp.
  destruct (action =? 1); [lia|].
  destruct (action =? 2); [now left|].
  destruct (action =? 3); [now right | exact Hp].
Qed.

Lemma controlled_keeps action x y : controlled action x y -> keeps x y.
Proof.
  unfold controlled, keeps. intros (Hp & Hph & Ht & _).
  split; [exact Hp|]. split.
  - rewrite Hph. apply commanded_phase.
  - rewrite Ht. destruct (current_phase y =? current_phase x); lia.
Qed.

Lemma process_all_keeps actions st rng :
  related keeps (tick_intersections st)
          (tick_intersections (fst (process_all st actions rng))).
Proof.
  revert st rng. induction actions as [|[i action] rest IH]; intros st rng.
  - cbn. apply RelatedFacts.related_refl. apply keeps_refl.
  - cbn [process_all]. unfold Rand.bind.
    assert (H1 : related keeps (tick_intersections st)
                   (tick_intersections (fst (process st (i, action) rng)))).
    { destruct (EnvFacts.process_cases st i action rng)
        as [[_ ->]|(x & Hx & ->)]; cbn [fst tick_intersections].
      - apply RelatedFacts.related_refl. apply keeps_refl.
      - apply (RelatedFacts.related_set keeps _ i x); [apply keeps_refl|exact Hx|].
        apply (controlled_keeps action). apply control_controlled. }
    destruct (process st (i, action) rng) as [st1 rng1]. cbn [fst] in H1.
    apply (RelatedFacts.related_trans keeps keeps keeps _ _ _ keeps_trans H1).
    apply IH.
Qed.

Lemma update_traffic_flow_arrived e rng :
  related arrived (intersections e)
          (intersections (fst (_update_traffic_flow e rng))).
Proof.
  unfold _update_traffic_flow, Rand.bind, Rand.ret.
  pose proof (RelatedFacts.update_each_related arrived
                (arrive (traffic_factor (current_time e)))
                (fun v e => arrive_arrived _ v e) (intersections e) rng) as H.
  now destruct (Dict.update_each _ (intersections e) rng).
Qed.

Lemma reset_restarted enc e rng :
  related restarted (intersections e)
          (intersections (fst (fst (reset enc e rng)))).
Proof.
  unfold reset, Rand.bind, Rand.ret.
  pose proof (RelatedFacts.update_each_related restarted reset_intersection
                reset_intersection_restarted (intersections e) rng) as H.
  now destruct (Dict.update_each _ (intersections e) rng).
Qed.

Lemma step_keeps enc e actions rng :
  related keeps (intersections e)
          (intersections (fst (fst (step enc e actions rng)))).
Proof.
  rewrite StepFacts.step_unfold. cbn zeta.
  cbn [fst with_intersections intersections].
  pose proof (update_traffic_flow_arrived (tick_clock e) rng) as H1.
  cbn [tick_clock intersections] in H1.
  apply (RelatedFacts.related_weaken _ keeps _ _ arrived_keeps) in H1.
  apply (RelatedFacts.related_trans keeps keeps keeps _ _ _ keeps_trans H1).
  apply (process_all_keeps actions
           (mkTick (intersections (fst (_update_traffic_flow (tick_clock e) rng)))
                   [] [])).
Qed.

Lemma run_keeps enc calls e rng :
  related keeps (intersections e) (intersections (fst (run enc e calls rng))).
Proof.
  revert e rng. induction calls as [|c rest IH]; intros e rng; simpl.
  - apply RelatedFacts.related_refl. apply keeps_refl.
  - unfold Rand.bind.
    assert (H1 : related keeps (intersections e)
                   (intersections (fst (perform enc e c rng)))).
    { destruct c as [|actions]; simpl; unfold Rand.bind, Rand.ret.
      - pose proof (reset_restarted enc e rng) as H.
        destruct (reset enc e rng) as [[e' o] rng']. cbn [fst] in *.
        exact (RelatedFacts.related_weaken _ keeps _ _ restarted_keeps H).
      - pose proof (step_keeps enc e actions rng) as H.
        now destruct (step enc e actions rng) as [[e' o] rng']. }
    destruct (perform enc e c rng) as [e' rng']. cbn [fst] in H1.
    apply (RelatedFacts.related_trans keeps keeps keeps _ _ _ keeps_trans H1).
    apply IH.
Qed.

(** *** How many numbers [reset] draws *)

Lemma next_skipn (s : list N) : snd (Rand.next s) = skipn 1 s.
Proof. now destruct s. Qed.

Lemma np_randint_draws lo hi e :
  Rand.np_random (snd (Rand.np_randint lo hi e)) = skipn 1 (Rand.np_random e).
Proof.
  unfold Rand.np_randint, Rand.bind, Rand.ret, Rand.np_raw.
  pose proof (next_skipn (Rand.np_random e)) as H.
  now destruct (Rand.next (Rand.np_random e)).
Qed.

Lemma reset_intersection_draws x e :
  Rand.np_random (snd (reset_intersection x e)) = skipn 2 (Rand.np_random e).
Proof.
  unfold reset_intersection, Rand.bind, Rand.ret.
  pose proof (np_randint_draws 0 10 e) as H1.
  destruct (Rand.np_randint 0 10 e) as [ns e1].
  pose proof (np_randint_draws 0 10 e1) as H2.
  destruct (Rand.np_randint 0 10 e1) as [ew e2].
  cbn [snd] in *. rewrite H2, H1. apply skipn_skipn.
Qed.

Lemma update_each_draws {V} (c : nat) (f : V -> Rand.M V) (d : Dict.t V) e :
  (forall v e, Rand.np_random (snd (f v e)) = skipn c (Rand.np_random e)) ->
  Rand.np_random (snd (Dict.update_each f d e))
  = skipn (c * length d) (Rand.np_random e).
Proof.
  intros Hf. revert e. induction d as [|[k v] d IH]; intros e; simpl.
  - now rewrite Nat.mul_0_r.
  - unfold Rand.bind, Rand.ret. specialize (Hf v e).
    destruct (f v e) as [v' e1]. specialize (IH e1).
    destruct (Dict.update_each f d e1) as [r e2]. cbn [snd] in *.
    rewrite IH, Hf, skipn_skipn. f_equal. lia.
Qed.

(** X1: [reset] puts the clock and the step counter back to 0, keeps the
    ids in their order, and gives every intersection queues drawn from
    [0..9], phase 0 and timer 0 at the position it had; it returns the
    observations of that state.  It draws exactly two numbers per
    intersection from numpy's generator and none from [random]. *)
Theorem reset_restarts enc e rng :
  let out := reset enc e rng in
  let e' := fst (fst out) in
  current_time e' = 0%Q /\ current_step e' = 0 /\
  max_steps e' = max_steps e /\
  Dict.keys (intersections e') = Dict.keys (intersections e) /\
  (forall i x',
      Dict.get (intersections e') i = Some x' ->
      exists x, Dict.get (intersections e) i = Some x /\ restarted x x') /\
  snd (fst out) = _get_state enc e' /\
  Rand.py_random (snd out) = Rand.py_random rng /\
  Rand.np_random (snd out)
  = skipn (2 * length (intersections e)) (Rand.np_random rng).
Proof.
  cbn zeta.
  pose proof (reset_restarted enc e rng) as Hrel.
  pose proof (RelatedFacts.np_only_reset enc e rng) as Hpy.
  pose proof (update_each_draws 2 reset_intersection (intersections e) rng
                reset_intersection_draws) as Hnp.
  unfold reset, Rand.bind, Rand.ret in *.
  destruct (Dict.update_each reset_intersection (intersections e) rng)
    as [d rng1].
  cbn [fst snd current_time current_step max_steps intersections] in *.
  repeat (split; [reflexivity|]).
  split; [exact (RelatedFacts.related_keys _ _ _ Hrel)|].
  split; [|auto].
  intros i x' Hx'. exact (RelatedFacts.related_get_back _ _ _ i x' Hrel Hx').
Qed.

(** X2: the arrival process only adds vehicles: each queue of each
    intersection stays or grows by at most 3, never past 30; phases,
    timers, positions, ids, the clock and the [random] module's generator
    are untouched. *)
Theorem arrivals_only_add e rng :
  let e1 := fst (_update_traffic_flow e rng) in
  Dict.keys (intersections e1) = Dict.keys (intersections e) /\
  (forall i x',
      Dict.get (intersections e1) i = Some x' ->
      exists x, Dict.get (intersections e) i = Some x /\ arrived x x') /\
  current_time e1 = current_time e /\ current_step e1 = current_step e /\
  Rand.py_random (snd (_update_traffic_flow e rng)) = Rand.py_random rng.
Proof.
  cbn zeta.
  pose proof (update_traffic_flow_arrived e rng) as Hrel.
  pose proof (RelatedFacts.np_only_update_traffic_flow e rng) as Hpy.
  split; [exact (RelatedFacts.related_keys _ _ _ Hrel)|].
  split.
  - intros i x' Hx'.
    exact (RelatedFacts.related_get_back _ _ _ i x' Hrel Hx').
  - unfold _update_traffic_flow, Rand.bind, Rand.ret in *.
    destruct (Dict.update_each _ (intersections e) rng) as [d rng1].
    cbn in *. auto.
Qed.

(** With no id twice in the action map, a supplied intersection goes
    through the loop body exactly once. *)
Lemma process_all_once actions st rng i action x :
  NoDup (map fst actions) -> In (i, action) actions ->
  Dict.get (tick_intersections st) i = Some x ->
  exists rng',
    Dict.get (tick_intersections (fst (process_all st actions rng))) i
    = Some (fst (control action x rng')).
Proof.
  revert st rng. induction actions as [|[j a] rest IH]; intros st rng Hnd Hin Hx;
    [contradiction|].
  cbn [map fst] in Hnd. inversion Hnd as [|? ? Hj Hrest]; subst.
  cbn [process_all]. unfold Rand.bind.
  destruct Hin as [Heq|Hin].
  - injection Heq as -> ->.
    destruct (EnvFacts.process_cases st i action rng)
      as [[Hn _]|(x0 & Hx0 & Hp)]; [congruence|].
    rewrite Hx in Hx0. injection Hx0 as <-.
    rewrite Hp.
    destruct (StepFacts.process_all_untouched rest
                (mkTick (Dict.set (tick_intersections st) i
                                  (fst (control action x rng)))
                        (Dict.set (tick_rewards st) i
                                  (reward_of (fst (control action x rng))))
                        (Dict.set (tick_info st) i
                                  (info_of (fst (control action x rng)))))
                (snd (control action x rng)) i Hj) as (H1 & _).
    cbn zeta in H1. exists rng. rewrite H1. cbn [tick_intersections].
    apply DictFacts.get_set_same.
  - assert (Hij : i <> j).
    { intros ->. apply Hj. apply (in_map fst) in Hin. exact Hin. }
    assert (H1 : Dict.get (tick_intersections (fst (process st (j, a) rng))) i
                 = Some x).
    { destruct (EnvFacts.process_cases st j a rng)
        as [[_ ->]|(x0 & _ & ->)]; [exact Hx|].
      cbn [fst tick_intersections].
      now rewrite DictFacts.get_set_other. }
    destruct (process st (j, a) rng) as [st1 rng1]. cbn [fst] in H1.
    exact (IH st1 rng1 Hrest Hin H1).
Qed.

(** X3: what [step] does to an intersection with a supplied action,
    starting from its record after the arrivals of the tick.  Action 1
    toggles the phase, 2 gives phase 0, 3 gives phase 1, every other code
    keeps it; the timer is 1 after a phase change and one more than before
    otherwise; the queue of the direction now green loses
    [min(queue, 3 + k)] vehicles and the other gains [g], capped at 30,
    with [k] and [g] among 0, 1, 2; the position stays. *)
Theorem step_controls_supplied enc e actions rng i action x :
  NoDup (map fst actions) -> In (i, action) actions ->
  Dict.get (intersections (fst (_update_traffic_flow (tick_clock e) rng))) i
  = Some x ->
  exists x',
    Dict.get (intersections (fst (fst (step enc e actions rng)))) i = Some x' /\
    controlled action x x'.
Proof.
  intros Hnd Hin Hx. rewrite StepFacts.step_unfold. cbn zeta.
  cbn [fst with_intersections intersections].
  destruct (process_all_once actions
              (mkTick (intersections
                         (fst (_update_traffic_flow (tick_clock e) rng)))
                      [] [])
              (snd (_update_traffic_flow (tick_clock e) rng))
              i action x Hnd Hin Hx) as [rng' Hget].
  eexists. split; [exact Hget|]. apply control_controlled.
Qed.

Lemma step_controls_supplied_witness :
  NoDup (map fst [(0, 1); (2, 3)]) /\ In (0, 1) [(0, 1); (2, 3)] /\
  Dict.get (intersections (fst (_update_traffic_flow (tick_clock grid4) zeros)))
           0
  = Some (mkIntersection (0, 0) 1 1 0 0) /\
  exists x',
    Dict.get (intersections
                (fst (fst (step flat_encoding grid4 [(0, 1); (2, 3)] zeros)))) 0
    = Some x' /\
    controlled 1 (mkIntersection (0, 0) 1 1 0 0) x'.
Proof.
  assert (Hnd : NoDup (map fst [(0, 1); (2, 3)])).
  { cbn. repeat constructor; cbn; intuition discriminate. }
  assert (Hin : In (0, 1) [(0, 1); (2, 3)]) by now left.
  assert (Hx : Dict.get (intersections
                           (fst (_update_traffic_flow (tick_clock grid4) zeros)))
                        0
               = Some (mkIntersection (0, 0) 1 1 0 0))
    by (vm_compute; reflexivity).
  split; [exact Hnd|]. split; [exact Hin|]. split; [exact Hx|].
  exact (step_controls_supplied flat_encoding grid4 [(0, 1); (2, 3)] zeros
           0 1 (mkIntersection (0, 0) 1 1 0 0) Hnd Hin Hx).
Defined.

(** X4: no sequence of [reset] and [step] calls adds, removes, reorders or
    moves an intersection. *)
Theorem ids_and_positions_fixed enc e calls rng :
  let e' := fst (run enc e calls rng) in
  Dict.keys (intersections e') = Dict.keys (intersections e) /\
  (forall i x',
      Dict.get (intersections e') i = Some x' ->
      exists x, Dict.get (intersections e) i = Some x /\
                position x' = position x).
Proof.
  cbn zeta. pose proof (run_keeps enc calls e rng) as Hrel.
  split; [exact (RelatedFacts.related_keys _ _ _ Hrel)|].
  intros i x' Hx'.
  destruct (RelatedFacts.related_get_back _ _ _ i x' Hrel Hx')
    as (x & Hx & Hp & _).
  eauto.
Qed.

(** Anything true of a freshly placed intersection is true of every
    intersection of a new environment. *)
Lemma init_all (P : intersection -> Prop) grid num e :
  (forall r c, P (fresh r c)) ->
  init grid num = Some e ->
  Forall (fun kv => P (snd kv)) (intersections e).
Proof.
  intros Hfresh. unfold init, _initialize_intersections.
  destruct (num <? 0); [discriminate|]. destruct grid as [rows cols].
  intros [= <-]. cbn [intersections].
  generalize (linspace_int (cols - 1) (Z.sqrt num)) as cs.
  generalize (linspace_int (rows - 1) (Z.sqrt num)) as rs.
  intros rs cs.
  assert (H0 : Forall (fun kv => P (snd kv))
                      (snd ((0, []) : Z * Dict.t intersection)))
    by constructor.
  revert H0. generalize ((0, []) : Z * Dict.t intersection) as st.
  induction rs as [|r rs IH]; intros st Hst; cbn [fold_left]; [exact Hst|].
  apply IH. unfold place_row. clear IH. revert st Hst.
  induction cs as [|c cs IHc]; intros [id d] Hd; cbn [fold_left]; [exact Hd|].
  apply IHc. cbn [snd] in *. apply DictFacts.set_Forall; [exact Hd|].
  apply Hfresh.
Qed.

(** X5: from construction on, through any sequence of [reset] and [step]
    calls with any action codes, every intersection shows phase 0 or 1
    and a non-negative timer. *)
Theorem signals_stay_valid enc grid num e0 calls rng i x :
  init grid num = Some e0 ->
  Dict.get (intersections (fst (run enc e0 calls rng))) i = Some x ->
  (current_phase x = 0 \/ current_phase x = 1) /\ 0 <= time_in_phase x.
Proof.
  intros Hinit Hx.
  destruct (RelatedFacts.related_get_back _ _ _ i x
              (run_keeps enc calls e0 rng) Hx) as (x0 & Hx0 & _ & Hph & Ht).
  pose proof (init_all (fun y => current_phase y = 0 /\ time_in_phase y = 0)
                grid num e0 (fun r c => conj eq_refl eq_refl) Hinit) as Hall.
  rewrite Forall_forall in Hall.
  destruct (Hall _ (DictFacts.get_in _ _ _ Hx0)) as [H1 H2]. cbn [snd] in *.
  split; [apply Hph; now left | apply Ht; lia].
Qed.

Lemma signals_stay_valid_witness :
  init (10, 10) 4 = Some grid4 /\
  Dict.get (intersections
              (fst (run flat_encoding grid4
                        [CallStep [(0, 1); (1, 7)]; CallStep [(0, 3)]] zeros))) 0
  = Some (mkIntersection (0, 0) 2 0 1 2) /\
  (1 = 0 \/ 1 = 1) /\ 0 <= 2.
Proof.
  split; [reflexivity|]. split; [vm_compute; reflexivity|].
  apply (signals_stay_valid flat_encoding (10, 10) 4 grid4
           [CallStep [(0, 1); (1, 7)]; CallStep [(0, 3)]] zeros 0
           (mkIntersection (0, 0) 2 0 1 2));
    [reflexivity | vm_compute; reflexivity].
Defined.

(** *** The clock *)

Lemma advance_time_value t :
  (advance_time t
   == t + (5 # 60) - 24 * inject_Z (Qfloor ((t + (5 # 60)) / 24)))%Q.
Proof. unfold advance_time. apply Qred_correct. Qed.

Lemma advance_time_range t : (0 <= advance_time t < 24)%Q.
Proof.
  rewrite advance_time_value.
  set (t' := (t + (5 # 60))%Q).
  pose proof (Qfloor_le (t' / 24)) as Hlo.
  pose proof (Qlt_floor (t' / 24)) as Hhi.
  rewrite inject_Z_plus in Hhi.
  set (z := inject_Z (Qfloor (t' / 24))) in *.
  assert (Hy : (t' / 24 * 24 == t')%Q) by (field).
  change (inject_Z 1) with 1%Q in Hhi.
  set (y := (t' / 24)%Q) in *. clearbody z y t'.
  split; lra.
Qed.

Lemma floor_between (y : Q) (n : Z) :
  (inject_Z n <= y)%Q -> (y < inject_Z n + 1)%Q -> Qfloor y = n.
Proof.
  intros H0 H1.
  pose proof (Qfloor_le y) as Hlo. pose proof (Qlt_floor y) as Hhi.
  rewrite inject_Z_plus in Hhi. change (inject_Z 1) with 1%Q in Hhi.
  assert (Ha : Qfloor y < n + 1).
  { rewrite Zlt_Qlt, inject_Z_plus. change (inject_Z 1) with 1%Q.
    set (a := inject_Z (Qfloor y)) in *. set (b := inject_Z n) in *.
    clearbody a b. lra. }
  assert (Hb : n < Qfloor y + 1).
  { rewrite Zlt_Qlt, inject_Z_plus. change (inject_Z 1) with 1%Q.
    set (a := inject_Z (Qfloor y)) in *. set (b := inject_Z n) in *.
    clearbody a b. lra. }
  lia.
Qed.

Lemma floor_of_day (t' : Q) (n : Z) :
  (24 * inject_Z n <= t')%Q -> (t' < 24 * inject_Z n + 24)%Q ->
  Qfloor (t' / 24) = n.
Proof.
  intros H0 H1. apply floor_between.
  - assert (Hy : (t' / 24 * 24 == t')%Q) by field.
    set (y := (t' / 24)%Q) in *. set (b := inject_Z n) in *.
    clearbody y b. lra.
  - assert (Hy : (t' / 24 * 24 == t')%Q) by field.
    set (y := (t' / 24)%Q) in *. set (b := inject_Z n) in *.
    clearbody y b. lra.
Qed.

(** The arrival process leaves the clock and the counters alone. *)
Lemma update_traffic_flow_clock e rng :
  let e1 := fst (_update_traffic_flow e rng) in
  current_time e1 = current_time e /\ current_step e1 = current_step e /\
  max_steps e1 = max_steps e.
Proof.
  unfold _update_traffic_flow, Rand.bind, Rand.ret.
  now destruct (Dict.update_each _ (intersections e) rng).
Qed.

Lemma step_counter enc e actions rng :
  let out := fst (step enc e actions rng) in
  current_step (fst out) = current_step e + 1 /\
  max_steps (fst out) = max_steps e /\
  done (snd out) = (max_steps e <=? current_step e + 1).
Proof.
  rewrite StepFacts.step_unfold. cbn zeta.
  cbn [fst snd with_intersections current_step max_steps done].
  destruct (update_traffic_flow_clock (tick_clock e) rng) as (_ & Hs & Hm).
  cbn zeta in Hs, Hm. rewrite Hs, Hm. cbn. auto.
Qed.

(** X6: one [step] adds 1 to the step counter and 5 minutes to the time of
    day, which wraps at 24 hours and so stays in [0, 24); the horizon is
    unchanged and the returned flag says whether the counter has reached
    it. *)
Theorem step_advances_clock enc e actions rng :
  let out := fst (step enc e actions rng) in
  let t := current_time e in
  let t' := current_time (fst out) in
  current_step (fst out) = current_step e + 1 /\
  max_steps (fst out) = max_steps e /\
  done (snd out) = (max_steps e <=? current_step e + 1) /\
  (0 <= t' < 24)%Q /\
  ((0 <= t)%Q -> (t + (5 # 60) < 24)%Q -> (t' == t + (5 # 60))%Q) /\
  ((24 <= t + (5 # 60))%Q -> (t + (5 # 60) < 48)%Q ->
   (t' == t + (5 # 60) - 24)%Q).
Proof.
  rewrite StepFacts.step_unfold. cbn zeta.
  cbn [fst snd with_intersections current_step max_steps current_time done].
  destruct (update_traffic_flow_clock (tick_clock e) rng) as (Ht & Hs & Hm).
  cbn zeta in Ht, Hs, Hm. rewrite Ht, Hs, Hm. cbn [tick_clock current_time current_step].
  split; [reflexivity|]. split; [reflexivity|]. split; [reflexivity|].
  split; [apply advance_time_range|].
  split.
  - intros H0 H1. rewrite advance_time_value.
    rewrite (floor_of_day (current_time e + (5 # 60)) 0).
    + change (inject_Z 0) with 0%Q. ring.
    + change (inject_Z 0) with 0%Q. lra.
    + change (inject_Z 0) with 0%Q. lra.
  - intros H0 H1. rewrite advance_time_value.
    rewrite (floor_of_day (current_time e + (5 # 60)) 1).
    + change (inject_Z 1) with 1%Q. ring.
    + change (inject_Z 1) with 1%Q. lra.
    + change (inject_Z 1) with 1%Q. lra.
Qed.

(** X7: over successive [step] calls the step counter counts the calls,
    and the [k]-th call (from 0) returns [done] exactly when the counter
    it leaves has reached [max_steps]: never before the horizon, always
    from it on. *)
Theorem done_exactly_from_horizon enc e script rng :
  let out := fst (steps enc e script rng) in
  current_step (fst out) = current_step e + Z.of_nat (length script) /\
  max_steps (fst out) = max_steps e /\
  length (snd out) = length script /\
  (forall k b,
      nth_error (snd out) k = Some b ->
      b = (max_steps e <=? current_step e + Z.of_nat k + 1)).
Proof.
  cbn zeta. revert e rng.
  induction script as [|actions rest IH]; intros e rng.
  - cbn. repeat split; try lia. intros [|k] b; discriminate.
  - cbn [steps]. unfold Rand.bind, Rand.ret.
    destruct (step_counter enc e actions rng) as (Hs & Hm & Hd).
    cbn zeta in Hs, Hm, Hd.
    destruct (step enc e actions rng) as [r rng1]. cbn [fst] in *.
    specialize (IH (fst r) rng1).
    destruct (steps enc (fst r) rest rng1) as [r' rng2]. cbn [fst snd] in *.
    destruct IH as (IHs & IHm & IHl & IHk).
    rewrite IHs, IHm, Hs, Hm.
    change (length (actions :: rest)) with (S (length rest)).
    split; [lia|]. split; [reflexivity|].
    split; [cbn; now rewrite IHl|].
    intros [|k] b; cbn [nth_error].
    + intros [= <-]. rewrite Hd. f_equal. cbn. lia.
    + intros Hk. rewrite (IHk k b Hk), Hs, Hm. f_equal. lia.
Qed.

(** *** Observations *)

Lemma get_state_get enc e i :
  Dict.get (_get_state enc e) i
  = option_map (observe enc (current_time e)) (Dict.get (intersections e) i).
Proof.
  unfold _get_state. induction (intersections e) as [|[k v] d IH]; cbn;
    [reflexivity|].
  destruct (i =? k); [reflexivity | exact IH].
Qed.

Lemma get_state_keys enc e :
  Dict.keys (_get_state enc e) = Dict.keys (intersections e).
Proof.
  unfold _get_state, Dict.keys. rewrite map_map. reflexivity.
Qed.

(** X8: the observations [step] returns cover every intersection of the
    environment, with or without a supplied action, in the order of the
    ids; each has six entries and reads the queues, phase and timer of
    the intersection as the step left them, and the new time of day. *)
Theorem step_observes_every_intersection enc e actions rng :
  let out := fst (step enc e actions rng) in
  Dict.keys (next_state (snd out)) = Dict.keys (intersections e) /\
  (forall i,
      Dict.get (next_state (snd out)) i
      = option_map (observe enc (current_time (fst out)))
                   (Dict.get (intersections (fst out)) i)) /\
  (forall i o,
      Dict.get (next_state (snd out)) i = Some o ->
      length o = 6%nat /\
      exists x,
        Dict.get (intersections (fst out)) i = Some x /\
        firstn 4 o = map inject_Z [queue_ns x; queue_ew x; current_phase x;
                                   time_in_phase x]).
Proof.
  cbn zeta.
  pose proof (RelatedFacts.related_keys _ _ _ (step_keeps enc e actions rng))
    as Hkeys.
  assert (Hns : next_state (snd (fst (step enc e actions rng)))
                = _get_state enc (fst (fst (step enc e actions rng)))).
  { rewrite StepFacts.step_unfold. reflexivity. }
  rewrite Hns. split; [now rewrite get_state_keys|].
  split; [intros i; apply get_state_get|].
  intros i o. rewrite get_state_get.
  destruct (Dict.get (intersections (fst (fst (step enc e actions rng)))) i)
    as [x|]; [|discriminate].
  cbn. intros [= <-]. split; [reflexivity|]. exists x. auto.
Qed.

(** X9: in every state the environment can reach from construction, each
    reward a [step] returns lies between -60 and 0. *)
Theorem rewards_in_range enc grid num e0 calls rng actions rng' i v :
  init grid num = Some e0 ->
  Dict.get (rewards (snd (fst (step enc (fst (run enc e0 calls rng))
                                    actions rng')))) i = Some v ->
  -60 <= v <= 0.
Proof.
  intros Hinit Hv.
  destruct (StepFacts.rewards_are_minus_queues enc grid num e0 calls rng
              actions rng' i v Hinit Hv) as (x & Hx & ->).
  pose proof (EnvFacts.step_sane enc (fst (run enc e0 calls rng)) actions rng'
                (EnvFacts.run_sane enc calls e0 rng
                   (EnvFacts.init_sane _ _ _ Hinit))) as Hs.
  unfold all_sane in Hs. rewrite Forall_forall in Hs.
  destruct (Hs _ (DictFacts.get_in _ _ _ Hx)) as (Hns & Hew & _).
  cbn [snd] in *. lia.
Qed.

Lemma rewards_in_range_witness :
  init (10, 10) 4 = Some grid4 /\
  Dict.get (rewards (snd (fst (step flat_encoding
                                    (fst (run flat_encoding grid4 [CallReset]
                                              (Rand.mkEntropy [7; 12]%N [])))
                                    [(0, 0)] zeros)))) 0 = Some (-8) /\
  -60 <= -8 <= 0.
Proof.
  split; [reflexivity|]. split; [vm_compute; reflexivity|].
  apply (rewards_in_range flat_encoding (10, 10) 4 grid4 [CallReset]
           (Rand.mkEntropy [7; 12]%N []) [(0, 0)] zeros 0 (-8));
    [reflexivity | vm_compute; reflexivity].
Defined.

(** *** The environment and the two generators *)

Lemma numpy_driven_ret {A} (x : A) : numpy_driven (Rand.ret x).
Proof. intros np. exists x, np. reflexivity. Qed.

Lemma numpy_driven_bind {A B} (m : Rand.M A) (k : A -> Rand.M B) :
  numpy_driven m -> (forall x, numpy_driven (k x)) ->
  numpy_driven (Rand.bind m k).
Proof.
  intros Hm Hk np. destruct (Hm np) as (x & np1 & H1).
  destruct (Hk x np1) as (y & np2 & H2).
  exists y, np2. intros py. unfold Rand.bind. rewrite H1. apply H2.
Qed.

Lemma numpy_driven_raw : numpy_driven Rand.np_raw.
Proof.
  intros np. exists (fst (Rand.next np)), (snd (Rand.next np)). intros py.
  unfold Rand.np_raw. cbn. now destruct (Rand.next np).
Qed.

Lemma numpy_driven_update_each {V} (f : V -> Rand.M V) (d : Dict.t V) :
  (forall v, numpy_driven (f v)) -> numpy_driven (Dict.update_each f d).
Proof.
  intros Hf. induction d as [|[k v] d IH]; cbn; [apply numpy_driven_ret|].
  apply numpy_driven_bind; [apply Hf|]. intros v'.
  apply numpy_driven_bind; [exact IH|]. intros r. apply numpy_driven_ret.
Qed.

Ltac numpy_driven_tac :=
  repeat first
    [ apply numpy_driven_ret | apply numpy_driven_raw
    | apply numpy_driven_bind; [|intros ?]
    | match goal with
      | |- numpy_driven (if ?b then _ else _) => destruct b
      end ].

Lemma numpy_driven_control action x : numpy_driven (control action x).
Proof.
  unfold control, traffic_flow, Rand.np_randint. numpy_driven_tac.
Qed.

Lemma numpy_driven_process_all actions st :
  numpy_driven (process_all st actions).
Proof.
  revert st. induction actions as [|[i action] rest IH]; intros st; cbn;
    [apply numpy_driven_ret|].
  apply numpy_driven_bind; [|intros; apply IH].
  destruct (Dict.get (tick_intersections st) i); [|apply numpy_driven_ret].
  apply numpy_driven_bind; [apply numpy_driven_control|].
  intros; apply numpy_driven_ret.
Qed.

Lemma numpy_driven_step enc e actions : numpy_driven (step enc e actions).
Proof.
  unfold step, _update_traffic_flow.
  apply numpy_driven_bind.
  - apply numpy_driven_bind; [|intros; apply numpy_driven_ret].
    apply numpy_driven_update_each. intros v.
    unfold arrive, Rand.np_uniform, Rand.np_randint. numpy_driven_tac.
  - intros e1. apply numpy_driven_bind; [apply numpy_driven_process_all|].
    intros; apply numpy_driven_ret.
Qed.

Lemma numpy_driven_reset enc e : numpy_driven (reset enc e).
Proof.
  unfold reset. apply numpy_driven_bind; [|intros; apply numpy_driven_ret].
  apply numpy_driven_update_each. intros v.
  unfold reset_intersection, Rand.np_randint. numpy_driven_tac.
Qed.

Lemma numpy_driven_run enc calls e : numpy_driven (run enc e calls).
Proof.
  revert e. induction calls as [|c rest IH]; intros e; cbn;
    [apply numpy_driven_ret|].
  apply numpy_driven_bind; [|intros; apply IH].
  destruct c as [|actions]; cbn.
  - apply numpy_driven_bind; [apply numpy_driven_reset|].
    intros; apply numpy_driven_ret.
  - apply numpy_driven_bind; [apply numpy_driven_step|].
    intros; apply numpy_driven_ret.
Qed.

(** X10: the simulation draws from numpy's generator only.  Through any
    sequence of [reset] and [step] calls the state of the [random] module
    is handed on unchanged, and neither the resulting environment nor
    what is left of numpy's stream depends on it. *)
Theorem environment_ignores_random_module enc e calls np py py' :
  let out := run enc e calls (Rand.mkEntropy np py) in
  let out' := run enc e calls (Rand.mkEntropy np py') in
  Rand.py_random (snd out) = py /\
  fst out' = fst out /\
  Rand.np_random (snd out') = Rand.np_random (snd out).
Proof.
  cbn zeta. destruct (numpy_driven_run enc calls e np) as (x & np1 & H).
  rewrite (H py), (H py'). cbn. auto.
Qed.

(** *** Placement inside the grid *)

Lemma linspace_int_bounds stop n v :
  0 <= stop -> In v (linspace_int stop n) -> 0 <= v <= stop.
Proof.
  intros Hs. unfold linspace_int. destruct (Z.eqb_spec n 1) as [->|Hn].
  - intros [<-|[]]. lia.
  - rewrite in_map_iff. intros (i & <- & Hi).
    apply PlacementFacts.in_range in Hi.
    assert (Hd : 0 < n - 1) by lia.
    split.
    + apply Z.quot_pos; nia.
    + rewrite Z.quot_div_nonneg by nia.
      apply Z.div_le_upper_bound; nia.
Qed.

(** X11: on a grid with at least one row and one column, every
    intersection the constructor places lies inside the grid. *)
Theorem placement_inside_grid rows cols num d i x :
  1 <= rows -> 1 <= cols ->
  _initialize_intersections (rows, cols) num = Some d ->
  Dict.get d i = Some x ->
  (0 <= fst (position x) <= rows - 1) /\ (0 <= snd (position x) <= cols - 1).
Proof.
  intros Hr Hc. unfold _initialize_intersections.
  destruct (num <? 0); [discriminate|]. intros [= <-] Hx.
  apply DictFacts.get_in in Hx.
  set (P := fun kv : Z * intersection =>
              (0 <= fst (position (snd kv)) <= rows - 1) /\
              (0 <= snd (position (snd kv)) <= cols - 1)).
  assert (Hall : Forall P
                   (snd (fold_left
                           (place_row (linspace_int (cols - 1) (Z.sqrt num)))
                           (linspace_int (rows - 1) (Z.sqrt num)) (0, [])))).
  { assert (Hrs : forall v, In v (linspace_int (rows - 1) (Z.sqrt num)) ->
                             0 <= v <= rows - 1)
      by (intros v; apply linspace_int_bounds; lia).
    assert (Hcs : forall v, In v (linspace_int (cols - 1) (Z.sqrt num)) ->
                             0 <= v <= cols - 1)
      by (intros v; apply linspace_int_bounds; lia).
    revert Hrs Hcs.
    generalize (linspace_int (cols - 1) (Z.sqrt num)) as cs.
    generalize (linspace_int (rows - 1) (Z.sqrt num)) as rs.
    intros rs cs Hrs Hcs.
    assert (H0 : Forall P (snd ((0, []) : Z * Dict.t intersection)))
      by constructor.
    revert H0. generalize ((0, []) : Z * Dict.t intersection) as st.
    induction rs as [|r rs IH]; intros st Hst; cbn [fold_left]; [exact Hst|].
    apply IH; [intros v Hv; apply Hrs; now right|].
    assert (Hrow : 0 <= r <= rows - 1) by (apply Hrs; now left).
    unfold place_row. clear IH. revert st Hst.
    induction cs as [|c cs IHc]; intros [id d] Hd; cbn [fold_left];
      [exact Hd|].
    apply IHc; [intros v Hv; apply Hcs; now right|].
    cbn [snd] in *. apply DictFacts.set_Forall; [exact Hd|].
    unfold P, fresh. cbn.
    split; [exact Hrow | apply Hcs; now left]. }
  rewrite Forall_forall in Hall. exact (Hall _ Hx).
Qed.

Lemma placement_inside_grid_witness :
  1 <= 10 /\ 1 <= 10 /\
  _initialize_intersections (10, 10) 4 = Some (intersections grid4) /\
  Dict.get (intersections grid4) 3 = Some (fresh 9 9) /\
  (0 <= 9 <= 10 - 1) /\ (0 <= 9 <= 10 - 1).
Proof.
  split; [lia|]. split; [lia|]. split; [reflexivity|]. split; [reflexivity|].
  apply (placement_inside_grid 10 10 4 (intersections grid4) 3 (fresh 9 9));
    [lia | lia | reflexivity | reflexivity].
Defined.

End EnvExtra.

(** ** The environment: which intersections a step processes, and how *)

Module StepProcessing.
Import Env Inv EnvSpec.

(** C9: [step] processes exactly the supplied ids that exist.
    - Entries for unknown ids can be removed from the action map without
      any change to the resulting environment, the returned values or the
      random draws left.
    - An id has a reward (and an info entry) exactly when it was supplied
      and exists, both belonging to its record after the step.
    - An intersection without a supplied action is left as the arrival
      process made it.
    - A supplied, existing intersection is processed (the action map of a
      dictionary has no id twice): from its record after the arrivals,
      the phase is the one its action commands (1 toggles, 2 gives phase
      0, 3 gives phase 1, any other code keeps it), the timer is 1 after
      a phase change and one more than before otherwise, the queue of the
      direction now green is discharged by [min(queue, 3 + k)] and the
      other grows by [g], capped at 30, with [k], [g] among 0, 1, 2. *)
Theorem step_processes_supplied_known enc e actions rng :
  let known := fun ia : Z * Z => Dict.mem (intersections e) (fst ia) in
  let arrived := fst (_update_traffic_flow (tick_clock e) rng) in
  let e' := fst (fst (step enc e actions rng)) in
  let r := snd (fst (step enc e actions rng)) in
  step enc e actions rng = step enc e (filter known actions) rng /\
  (forall i,
      Dict.mem (rewards r) i = true <->
      In i (map fst actions) /\ Dict.mem (intersections e) i = true) /\
  (forall i,
      match Dict.get (rewards r) i with
      | Some v =>
          exists x, Dict.get (intersections e') i = Some x /\
                    v = reward_of x /\
                    Dict.get (info r) i = Some (info_of x)
      | None => Dict.get (info r) i = None
      end) /\
  (forall i,
      ~ In i (map fst actions) ->
      Dict.get (intersections e') i = Dict.get (intersections arrived) i) /\
  (forall i action x,
      NoDup (map fst actions) -> In (i, action) actions ->
      Dict.get (intersections arrived) i = Some x ->
      exists x',
        Dict.get (intersections e') i = Some x' /\
        position x' = position x /\
        current_phase x' = commanded action (current_phase x) /\
        time_in_phase x'
        = (if current_phase x' =? current_phase x
           then time_in_phase x + 1 else 1) /\
        exists k g,
          0 <= k < 3 /\ 0 <= g < 3 /\
          (current_phase x' = 0 ->
           queue_ns x' = Z.max 0 (queue_ns x - Z.min (3 + k) (queue_ns x)) /\
           queue_ew x' = Z.min 30 (queue_ew x + g)) /\
          (current_phase x' <> 0 ->
           queue_ew x' = Z.max 0 (queue_ew x - Z.min (3 + k) (queue_ew x)) /\
           queue_ns x' = Z.min 30 (queue_ns x + g))).
Proof.
  cbv zeta.
  destruct (StepFacts.step_frame_and_entries enc e actions rng)
    as (Hfilter & Hkeys & Hentries & Huntouched).
  cbv zeta in Hfilter, Hkeys, Hentries, Huntouched.
  split; [exact Hfilter|]. split; [exact Hkeys|].
  split; [exact Hentries|]. split; [exact Huntouched|].
  intros i action x Hnd Hin Hx.
  rewrite StepFacts.step_unfold. cbn zeta.
  cbn [fst with_intersections intersections].
  destruct (EnvExtra.process_all_once actions
              (mkTick (intersections
                         (fst (_update_traffic_flow (tick_clock e) rng)))
                      [] [])
              (snd (_update_traffic_flow (tick_clock e) rng))
              i action x Hnd Hin Hx) as [rng' Hget].
  exists (fst (control action x rng')). split; [exact Hget|].
  exact (EnvExtra.control_controlled action x rng').
Qed.

(** The processing at work: the environment of [train_agent] after its
    arrivals with all raw draws zero, actions 1 for intersection 0 and 3
    for intersection 2.  Intersection 0 goes from phase 0 to phase 1 with
    timer 1, its east-west queue (now green) is emptied and its
    north-south queue stays at 1. *)
Lemma step_processes_supplied_known_example :
  NoDup (map fst [(0, 1); (2, 3)]) /\
  Dict.get (intersections (fst (_update_traffic_flow (tick_clock grid4) zeros)))
           0
  = Some (mkIntersection (0, 0) 1 1 0 0) /\
  Dict.get (intersections
              (fst (fst (step flat_encoding grid4 [(0, 1); (2, 3)] zeros)))) 0
  = Some (mkIntersection (0, 0) 1 0 1 1) /\
  Dict.get (intersections
              (fst (fst (step flat_encoding grid4 [(0, 1); (2, 3)] zeros)))) 2
  = Some (mkIntersection (9, 0) 1 0 1 1) /\
  Dict.get (intersections
              (fst (fst (step flat_encoding grid4 [(0, 1); (2, 3)] zeros)))) 1
  = Some (mkIntersection (0, 9) 1 1 0 0).
Proof.
  split; [cbn; repeat constructor; cbn; intuition discriminate|].
  vm_compute. repeat split.
Qed.

End StepProcessing.

(** ** The agent: further properties *)

Module AgentExtra.
Import Agent AgentSpec.

Lemma in_remove_nth {A} (j : nat) (l : list A) (x : A) :
  In x (Rand.remove_nth j l) -> In x l.
Proof.
  unfold Rand.remove_nth. rewrite in_app_iff. intros [H|H].
  - rewrite <- (firstn_skipn j l). apply in_or_app. now left.
  - rewrite <- (firstn_skipn (S j) l). apply in_or_app. now right.
Qed.

(** A sample holds elements of the pool only. *)
Lemma py_sample_in {A} (k : nat) (pool : list A) e x :
  In x (fst (Rand.py_sample pool k e)) -> In x pool.
Proof.
  revert pool e. induction k as [|k IH]; intros pool e; cbn [Rand.py_sample].
  - intros [].
  - unfold Rand.bind, Rand.ret. destruct (Rand.py_raw e) as [r e1].
    destruct (nth_error pool (N.to_nat r mod length pool)) as [v|] eqn:E;
      [|intros []].
    specialize (IH (Rand.remove_nth (N.to_nat r mod length pool) pool) e1).
    destruct (Rand.py_sample _ k e1) as [rest e2]. cbn [fst] in *.
    intros [<-|Hin].
    + exact (nth_error_In _ _ E).
    + apply in_remove_nth with (j := (N.to_nat r mod length pool)%nat).
      now apply IH.
Qed.

(** Sampling leaves numpy's generator alone. *)
Lemma py_sample_np {A} (k : nat) (pool : list A) e :
  Rand.np_random (snd (Rand.py_sample pool k e)) = Rand.np_random e.
Proof.
  revert pool e. induction k as [|k IH]; intros pool e; cbn [Rand.py_sample];
    [reflexivity|].
  unfold Rand.bind, Rand.ret, Rand.py_raw.
  destruct (Rand.next (Rand.py_random e)) as [r s].
  destruct (nth_error pool (N.to_nat r mod length pool)) as [v|];
    [|reflexivity].
  specialize (IH (Rand.remove_nth (N.to_nat r mod length pool) pool)
                 (Rand.mkEntropy (Rand.np_random e) s)).
  destruct (Rand.py_sample _ k _) as [rest e2]. exact IH.
Qed.

Section WithNetwork.
Context {net : Type} `{Approximator net}.
Implicit Types (a : agent net) (rng : Rand.entropy).

Lemma act_total a (state : observation) (training : bool)
  rng :
  0 < action_size a ->
  rows_of_size (Z.to_nat (action_size a)) ->
  exists k rng',
    act a state training rng = Some (k, rng') /\ 0 <= k < action_size a.
Proof.
  intros Hsize Hrows.
  assert (Hgreedy : forall rng0, exists k,
             greedy a state rng0 = Some (k, rng0) /\ 0 <= k < action_size a).
  { intros rng0. unfold greedy.
    assert (Hne : predict (primary_network a) state <> []).
    { intros Hr. pose proof (Hrows (primary_network a) state) as Hl.
      rewrite Hr in Hl. cbn in Hl. lia. }
    destruct (BufferFacts.argmax_spec _ Hne) as (k & -> & Hmax).
    apply BufferFacts.is_argmax_bound in Hmax. rewrite Hrows in Hmax.
    exists (Z.of_nat k). split; [reflexivity | lia]. }
  unfold act. destruct training.
  - unfold Rand.bindE, Rand.lift.
    destruct (Rand.np_uniform rng) as [u rng1].
    destruct (Qle_bool u (epsilon a)).
    + unfold Rand.py_randrange.
      destruct (Z.ltb_spec 0 (action_size a)) as [_|Hle]; [|lia].
      unfold Rand.lift, Rand.bind, Rand.ret.
      destruct (Rand.py_raw rng1) as [r rng2].
      eexists. eexists. split; [reflexivity|].
      apply Z.mod_pos_bound. exact Hsize.
    + destruct (Hgreedy rng1) as (k & Hk & Hb). eauto.
  - destruct (Hgreedy rng) as (k & Hk & Hb). eauto.
Qed.

(** X12: for an agent with a positive number of actions whose networks
    answer with one value per action, [act] never raises and returns an
    action in [0, action_size), in training and in evaluation mode,
    whatever the random draws. *)
Theorem act_returns_valid_action a (state : observation) (training : bool)
  rng :
  0 < action_size a ->
  rows_of_size (Z.to_nat (action_size a)) ->
  exists k rng',
    act a state training rng = Some (k, rng') /\ 0 <= k < action_size a.
Proof. exact (act_total a state training rng). Qed.

(** X13: while epsilon is at least 1, as for a new agent, [act] in
    training mode explores on every call: it takes one draw from numpy's
    generator, returns [random.randrange(action_size)] and never consults
    a network, so the action does not depend on the state or on the
    weights. *)
Theorem act_explores_while_epsilon_is_one a (state : observation) rng :
  (1 <= epsilon a)%Q -> 0 < action_size a ->
  act a state true rng
  = Some (Z.of_N (fst (Rand.next (Rand.py_random rng))) mod action_size a,
          Rand.mkEntropy (snd (Rand.next (Rand.np_random rng)))
                         (snd (Rand.next (Rand.py_random rng)))).
Proof.
  intros Heps Hsize. unfold act, Rand.bindE, Rand.lift, Rand.np_uniform,
    Rand.bind, Rand.ret, Rand.np_raw.
  destruct (Rand.next (Rand.np_random rng)) as [x s] eqn:En.
  assert (Hu : Qle_bool (Z.of_N x mod 2 ^ 53 # 2 ^ 53) (epsilon a) = true).
  { apply Qle_bool_iff. apply Qle_trans with 1%Q; [|exact Heps].
    unfold Qle. cbn [Qnum Qden].
    pose proof (Z.mod_pos_bound (Z.of_N x) (2 ^ 53) ltac:(lia)) as Hb.
    change (Z.pos (2 ^ 53)) with (2 ^ 53). lia. }
  rewrite Hu. unfold Rand.py_randrange.
  destruct (Z.ltb_spec 0 (action_size a)) as [_|Hle]; [|lia].
  unfold Rand.lift, Rand.bind, Rand.ret, Rand.py_raw. cbn [Rand.py_random
    Rand.np_random].
  now destruct (Rand.next (Rand.py_random rng)).
Qed.

(** X14: learning never touches what is not learned: a [replay] call
    that returns leaves the replay memory, the target network, the
    discount, the exploration schedule's constants and the sizes as they
    were, and draws nothing from numpy's generator.  Only the primary
    network and epsilon can differ. *)
Theorem replay_changes_primary_and_epsilon_only a (batch_size : Z) rng a'
  rng' :
  replay a batch_size rng = Some (a', rng') ->
  exists p eps,
    a' = with_epsilon (with_primary a p) eps /\
    Rand.np_random rng' = Rand.np_random rng.
Proof.
  intros Hr.
  assert (Hnp : Rand.np_random rng' = Rand.np_random rng).
  { unfold replay in Hr.
    destruct (Z.of_nat (length (items (memory a))) <? batch_size);
      [now injection Hr as _ <-|].
    destruct (batch_size <? 0); [discriminate|].
    unfold Rand.bindE, Rand.lift, Rand.raise, Rand.retE in Hr.
    pose proof (py_sample_np (Z.to_nat batch_size) (items (memory a)) rng)
      as Hs.
    destruct (Rand.py_sample _ _ rng) as [minibatch rng1].
    destruct (train_batch a minibatch) as [[a1 calls]|]; [|discriminate].
    injection Hr as _ <-. exact Hs. }
  destruct (AgentFacts.replay_cases _ _ _ _ _ Hr)
    as [(_ & -> & _)|(_ & p & ->)].
  - exists (primary_network a), (epsilon a). split; [|exact Hnp].
    now destruct a.
  - exists p, (epsilon (decay_epsilon (with_primary a p))).
    split; [|exact Hnp].
    unfold decay_epsilon.
    destruct (Qltb (epsilon_min (with_primary a p))
                   (epsilon (with_primary a p))); reflexivity.
Qed.

Lemma replay_total (size : nat) a (batch_size : Z) rng :
  (0 < size)%nat -> rows_of_size size ->
  Forall (indexes size) (items (memory a)) ->
  0 <= batch_size ->
  exists a' rng', replay a batch_size rng = Some (a', rng').
Proof.
  intros Hsize Hrows Hmem Hbatch. unfold replay.
  destruct (Z.of_nat (length (items (memory a))) <? batch_size);
    [unfold Rand.retE; eauto|].
  destruct (Z.ltb_spec batch_size 0) as [Hneg|_]; [lia|].
  unfold Rand.bindE, Rand.lift, Rand.raise, Rand.retE.
  pose proof (py_sample_in (Z.to_nat batch_size) (items (memory a)) rng)
    as Hin.
  destruct (Rand.py_sample _ _ rng) as [minibatch rng1]. cbn [fst] in Hin.
  assert (Hall : Forall (indexes size) minibatch).
  { rewrite Forall_forall in *. intros tr Htr. apply Hmem. now apply Hin. }
  destruct (LearningFacts.train_batch_total size minibatch a Hsize Hrows Hall)
    as (a1 & calls & ->).
  eauto.
Qed.

(** X15: [replay] cannot raise when the batch size is not negative, the
    networks answer with [size] values and every stored action indexes
    such a row. *)
Theorem replay_never_raises (size : nat) a (batch_size : Z) rng :
  (0 < size)%nat -> rows_of_size size ->
  Forall (indexes size) (items (memory a)) ->
  0 <= batch_size ->
  exists a' rng', replay a batch_size rng = Some (a', rng').
Proof. exact (replay_total size a batch_size rng). Qed.

(** X16: [remember] does not check the action it stores, and [replay]
    fails on it later: if no stored action indexes a row of the network's
    output, every [replay] call that draws a non-empty batch raises. *)
Theorem replay_raises_on_foreign_actions (size : nat) a (batch_size : Z) rng :
  rows_of_size size ->
  Forall (fun tr => ~ indexes size tr) (items (memory a)) ->
  1 <= batch_size <= Z.of_nat (length (items (memory a))) ->
  replay a batch_size rng = None.
Proof.
  intros Hrows Hmem Hbatch. unfold replay.
  destruct (Z.ltb_spec (Z.of_nat (length (items (memory a)))) batch_size)
    as [Hlt|_]; [lia|].
  destruct (Z.ltb_spec batch_size 0) as [Hneg|_]; [lia|].
  unfold Rand.bindE, Rand.lift, Rand.raise, Rand.retE.
  pose proof (py_sample_in (Z.to_nat batch_size) (items (memory a)) rng)
    as Hin.
  destruct (Z.to_nat batch_size) as [|k] eqn:Ek; [lia|].
  cbn [Rand.py_sample] in *. unfold Rand.bind, Rand.ret in *.
  destruct (Rand.py_raw rng) as [r rng1].
  assert (Hpos : (N.to_nat r mod length (items (memory a))
                  < length (items (memory a)))%nat)
    by (apply Nat.mod_upper_bound; lia).
  destruct (nth_error (items (memory a))
                      (N.to_nat r mod length (items (memory a))))
    as [tr|] eqn:E; [|apply nth_error_None in E; lia].
  destruct (Rand.py_sample _ k rng1) as [rest rng2]. cbn [fst] in Hin.
  assert (Hbad : ~ indexes size tr).
  { rewrite Forall_forall in Hmem. apply Hmem. apply Hin. now left. }
  cbn [train_batch].
  assert (Hnone : target_vector a tr = None).
  { unfold target_vector. destruct (learning_target a tr); [|reflexivity].
    unfold setitem, index. cbv zeta. rewrite !Hrows.
    unfold indexes in Hbad.
    destruct (Z.leb_spec 0 (t_action tr));
      destruct (Z.ltb_spec (t_action tr) (Z.of_nat size));
      destruct (Z.leb_spec (- Z.of_nat size) (t_action tr));
      destruct (Z.ltb_spec (t_action tr) 0); cbn;
      first [reflexivity | exfalso; lia]. }
  now rewrite Hnone.
Qed.

(** X17: right after [update_target_network] the double-DQN target of a
    non-terminal transition is the plain DQN target: the reward plus
    gamma times the largest value the primary network gives the next
    state.  The sync itself changes the target network only. *)
Theorem sync_gives_the_maximum a (tr : transition) (target : Q) :
  t_done tr = false ->
  learning_target (update_target_network a) tr = Some target ->
  let row := predict (primary_network a) (t_next_state tr) in
  primary_network (update_target_network a) = primary_network a /\
  target_network (update_target_network a) = primary_network a /\
  memory (update_target_network a) = memory a /\
  epsilon (update_target_network a) = epsilon a /\
  exists m,
    In m row /\ (forall q, In q row -> (q <= m)%Q) /\
    target = (t_reward tr + gamma a * m)%Q.
Proof.
  intros Hd Ht. cbn zeta.
  repeat (split; [reflexivity|]).
  destruct (LearningFacts.learning_target_rule _ _ _ Ht) as [_ Hlive].
  destruct (Hlive Hd) as (k & q & (m & Hm & Hmax & _) & Hq & ->).
  cbn [update_target_network primary_network target_network gamma] in *.
  rewrite Hm in Hq. injection Hq as <-.
  exists m. split; [exact (nth_error_In _ _ Hm)|]. split; [|reflexivity].
  intros q Hin. destruct (In_nth_error _ _ Hin) as [j Hj].
  exact (Hmax j q Hj).
Qed.

End WithNetwork.

Lemma act_returns_valid_action_witness :
  0 < action_size worked /\
  @rows_of_size row4 _ (Z.to_nat (action_size worked)) /\
  exists k rng',
    act worked sample_state true Inv.zeros = Some (k, rng') /\
    0 <= k < action_size worked.
Proof.
  split; [reflexivity|]. split; [exact LearningFacts.row4_rows|].
  apply (act_returns_valid_action worked sample_state true Inv.zeros);
    [reflexivity | exact LearningFacts.row4_rows].
Defined.

Lemma act_explores_while_epsilon_is_one_witness :
  (1 <= epsilon blank)%Q /\ 0 < action_size blank /\
  act blank sample_state true (Rand.mkEntropy [5]%N [6]%N)
  = Some (Z.of_N (fst (Rand.next [6]%N)) mod action_size blank,
          Rand.mkEntropy (snd (Rand.next [5]%N)) (snd (Rand.next [6]%N))).
Proof.
  assert (He : (1 <= epsilon blank)%Q) by (vm_compute; discriminate).
  split; [exact He|]. split; [reflexivity|].
  exact (act_explores_while_epsilon_is_one blank sample_state
           (Rand.mkEntropy [5]%N [6]%N) He eq_refl).
Defined.

Lemma replay_changes_primary_and_epsilon_only_witness :
  exists a' rng',
    replay seasoned 1 Inv.zeros = Some (a', rng') /\
    exists p eps,
      a' = with_epsilon (with_primary seasoned p) eps /\
      Rand.np_random rng' = Rand.np_random Inv.zeros.
Proof.
  eexists. eexists. split; [reflexivity|].
  eapply (replay_changes_primary_and_epsilon_only seasoned 1 Inv.zeros).
  reflexivity.
Defined.

Lemma replay_never_raises_witness :
  (0 < 4)%nat /\ @rows_of_size row4 _ 4 /\
  Forall (indexes 4) (items (memory seasoned)) /\ 0 <= 1 /\
  exists a' rng', replay seasoned 1 Inv.zeros = Some (a', rng').
Proof.
  assert (Hall : Forall (indexes 4) (items (memory seasoned)))
    by (repeat constructor; cbn; lia).
  split; [lia|]. split; [exact LearningFacts.row4_rows|].
  split; [exact Hall|]. split; [lia|].
  apply (replay_never_raises 4 seasoned 1 Inv.zeros);
    [lia | exact LearningFacts.row4_rows | exact Hall | lia].
Defined.

Lemma replay_raises_on_foreign_actions_witness :
  let a := remember blank sample_state 7 (-1) sample_next false in
  @rows_of_size row4 _ 4 /\
  Forall (fun tr => ~ indexes 4 tr) (items (memory a)) /\
  1 <= 1 <= Z.of_nat (length (items (memory a))) /\
  replay a 1 Inv.zeros = None.
Proof.
  cbv zeta.
  assert (Hall : Forall (fun tr => ~ indexes 4 tr)
                   (items (memory (remember blank sample_state 7 (-1)
                                            sample_next false)))).
  { repeat constructor. unfold indexes. cbn. lia. }
  assert (Hb : 1 <= 1 <= Z.of_nat (length (items (memory
                 (remember blank sample_state 7 (-1) sample_next false)))))
    by (cbn; lia).
  split; [exact LearningFacts.row4_rows|]. split; [exact Hall|].
  split; [exact Hb|].
  exact (replay_raises_on_foreign_actions 4
           (remember blank sample_state 7 (-1) sample_next false) 1 Inv.zeros
           LearningFacts.row4_rows Hall Hb).
Defined.

Lemma sync_gives_the_maximum_witness :
  exists target,
    t_done worked_transition = false /\
    learning_target (update_target_network worked) worked_transition
    = Some target /\
    primary_network (update_target_network worked) = primary_network worked /\
    target_network (update_target_network worked) = primary_network worked /\
    memory (update_target_network worked) = memory worked /\
    epsilon (update_target_network worked) = epsilon worked /\
    exists m,
      In m (predict (primary_network worked) (t_next_state worked_transition)) /\
      (forall q,
          In q (predict (primary_network worked)
                        (t_next_state worked_transition)) -> (q <= m)%Q) /\
      target = (t_reward worked_transition + gamma worked * m)%Q.
Proof.
  eexists. split; [reflexivity|]. split; [reflexivity|].
  eapply (sync_gives_the_maximum worked worked_transition); reflexivity.
Defined.

End AgentExtra.

(** ** Sequence windows *)

Module LstmFacts.
Import Lstm.

Lemma nth_error_range (n : Z) (k : nat) :
  (k < Z.to_nat n)%nat -> nth_error (Env.range n) k = Some (Z.of_nat k).
Proof.
  intros Hk. unfold Env.range. rewrite nth_error_map.
  rewrite (nth_error_nth' _ 0%nat) by (rewrite length_seq; exact Hk).
  rewrite seq_nth by exact Hk. reflexivity.
Qed.

Lemma firstn_plus {A} (a b : nat) (l : list A) :
  firstn (a + b) l = firstn a l ++ firstn b (skipn a l).
Proof.
  revert l. induction a as [|a IH]; intros l; [reflexivity|].
  destruct l as [|x l]; cbn; [now rewrite firstn_nil | now rewrite IH].
Qed.

Lemma slice_inside {A} (l : list A) (lo hi : Z) :
  0 <= lo <= hi -> hi <= Z.of_nat (length l) ->
  slice l lo hi = firstn (Z.to_nat (hi - lo)) (skipn (Z.to_nat lo) l) /\
  length (slice l lo hi) = Z.to_nat (hi - lo).
Proof.
  intros Hlo Hhi. unfold slice, clamp. cbv zeta.
  destruct (Z.ltb_spec lo 0); [lia|]. destruct (Z.ltb_spec hi 0); [lia|].
  rewrite !Z.min_l by lia. split; [reflexivity|].
  rewrite length_firstn, length_skipn. lia.
Qed.

(** X21: for a non-negative look-back [b] and horizon [h],
    [_create_sequences] on [n] values makes [n - b - h + 1] pairs (none
    when the data is shorter than [b + h]).  The [k]-th input is the [b]
    values from position [k] and the [k]-th target the [h] values right
    after them: every window is complete, and input and target together
    are one contiguous stretch of the data. *)
Theorem create_sequences_windows (look_back prediction_horizon : Z)
  (data : list Q) :
  0 <= look_back -> 0 <= prediction_horizon ->
  let X := fst (_create_sequences look_back prediction_horizon data) in
  let y := snd (_create_sequences look_back prediction_horizon data) in
  let count :=
    Z.to_nat (Z.of_nat (length data) - look_back - prediction_horizon + 1) in
  length X = count /\ length y = count /\
  forall k,
    (k < count)%nat ->
    exists input target,
      nth_error X k = Some input /\ nth_error y k = Some target /\
      length input = Z.to_nat look_back /\
      length target = Z.to_nat prediction_horizon /\
      input ++ target
      = firstn (Z.to_nat look_back + Z.to_nat prediction_horizon)
               (skipn k data).
Proof.
  intros Hb Hh. cbv zeta. unfold _create_sequences. cbn [fst snd].
  rewrite !length_map, PlacementFacts.range_length.
  split; [reflexivity|]. split; [reflexivity|].
  intros k Hk. rewrite !nth_error_map, (nth_error_range _ k Hk). cbn.
  destruct (slice_inside data (Z.of_nat k) (Z.of_nat k + look_back))
    as [E1 L1]; [lia | lia|].
  destruct (slice_inside data (Z.of_nat k + look_back)
                         (Z.of_nat k + look_back + prediction_horizon))
    as [E2 L2]; [lia | lia|].
  eexists. eexists. split; [reflexivity|]. split; [reflexivity|].
  split; [rewrite L1; f_equal; lia|]. split; [rewrite L2; f_equal; lia|].
  rewrite E1, E2, firstn_plus.
  replace (Z.to_nat (Z.of_nat k + look_back - Z.of_nat k))
    with (Z.to_nat look_back) by lia.
  replace (Z.to_nat (Z.of_nat k + look_back + prediction_horizon
                     - (Z.of_nat k + look_back)))
    with (Z.to_nat prediction_horizon) by lia.
  rewrite Nat2Z.id.
  replace (Z.to_nat (Z.of_nat k + look_back))
    with (Z.to_nat look_back + k)%nat by lia.
  now rewrite skipn_skipn.
Qed.

Lemma create_sequences_windows_witness :
  0 <= 2 /\ 0 <= 1 /\
  let X := fst (_create_sequences 2 1 [1; 2; 3; 4]%Q) in
  let y := snd (_create_sequences 2 1 [1; 2; 3; 4]%Q) in
  let count := Z.to_nat (Z.of_nat (length [1; 2; 3; 4]%Q) - 2 - 1 + 1) in
  length X = count /\ length y = count /\
  forall k,
    (k < count)%nat ->
    exists input target,
      nth_error X k = Some input /\ nth_error y k = Some target /\
      length input = Z.to_nat 2 /\
      length target = Z.to_nat 1 /\
      input ++ target
      = firstn (Z.to_nat 2 + Z.to_nat 1) (skipn k [1; 2; 3; 4]%Q).
Proof.
  split; [lia|]. split; [lia|].
  apply (create_sequences_windows 2 1 [1; 2; 3; 4]%Q); lia.
Defined.

End LstmFacts.
